(** * mm_file: memory-mapped file views

    A shallow embedding of [include/mm_file/mm_file.hpp]: the read view
    [mm::file_source<T>] and the write view [mm::file_sink<T>], together
    with a model of the POSIX calls they are written against ([open],
    [fstat], [ftruncate], [mmap], [posix_madvise], [munmap], [close]).

    Member functions are computations in a state-and-exception monad over
    the pair (object, operating system): a C++ [throw] leaves every
    assignment made before it in place, which is what the monad's
    [Throw] does. *)

From stdpp Require Import base gmap list strings.
From Stdlib Require Import ZArith Lia.
From Stdlib Require Import Strings.Byte.

Local Open Scope Z_scope.

(** ** Platform and element types *)

(** Width of [size_t] and of pointers, in bits. *)
Class Platform := {
  size_bits : Z;
  size_bits_pos : 0 < size_bits
}.

(** Conversion to [size_t]: unsigned arithmetic is modulo [2 ^ size_bits]. *)
Definition to_size_t `{Platform} (z : Z) : Z := z mod 2 ^ size_bits.

(** [static_assert(std::is_pod<T>::value)]: an element is [sizeof] bytes,
    stored and loaded by its object representation. *)
Class POD (T : Type) := {
  sizeof : Z;
  to_bytes : T → list byte;
  of_bytes : list byte → T;
  sizeof_pos : 0 < sizeof;
  to_bytes_length (x : T) : Z.of_nat (length (to_bytes x)) = sizeof;
  of_to_bytes (x : T) : of_bytes (to_bytes x) = x
}.
Global Arguments sizeof T {_}.

Definition nullptr : Z := 0.

(** [MAP_FAILED] is [(void* )-1]. *)
Definition MAP_FAILED `{Platform} : Z := to_size_t (-1).

(** ** The operating system *)

Definition page_size : Z := 4096.

Definition round_up (n : Z) : Z := (n + page_size - 1) / page_size * page_size.

Module advice.
Definition normal : Z := 0.      (* POSIX_MADV_NORMAL *)
Definition random : Z := 1.      (* POSIX_MADV_RANDOM *)
Definition sequential : Z := 2.  (* POSIX_MADV_SEQUENTIAL *)
End advice.

Record oflags := { o_rdwr : bool; o_creat : bool; o_trunc : bool }.
Definition O_RDONLY : oflags := {| o_rdwr := false; o_creat := false; o_trunc := false |}.
Definition O_RDWR_CREAT_TRUNC : oflags := {| o_rdwr := true; o_creat := true; o_trunc := true |}.

Inductive prot := PROT_READ | PROT_READ_WRITE.

Definition prot_writes (p : prot) : bool :=
  match p with PROT_READ => false | PROT_READ_WRITE => true end.

Record fd_entry := { fd_path : string; fd_rdwr : bool }.

(** A [MAP_SHARED] mapping of the file at [map_path] from offset 0. *)
Record mapping := {
  map_base : Z;
  map_len : Z;
  map_path : string;
  map_write : bool
}.

Record madvise_call := { adv_addr : Z; adv_len : Z; adv_advice : Z }.

Record stat := { st_size : Z }.

(** The state of the operating system as one process sees it.  [faults]
    is the environment's schedule: every system call consumes its head and
    fails when it is [true] (once the schedule is used up nothing fails for
    an external reason any more). *)
Record World := {
  files : gmap string (list byte);
  fds : gmap Z fd_entry;
  next_fd : Z;
  mappings : list mapping;
  next_addr : Z;
  advised : list madvise_call;
  faults : list bool
}.

Definition set_files (f : gmap string (list byte)) (w : World) : World :=
  {| files := f; fds := fds w; next_fd := next_fd w; mappings := mappings w;
     next_addr := next_addr w; advised := advised w; faults := faults w |}.

Definition set_fds (f : gmap Z fd_entry) (n : Z) (w : World) : World :=
  {| files := files w; fds := f; next_fd := n; mappings := mappings w;
     next_addr := next_addr w; advised := advised w; faults := faults w |}.

Definition set_mappings (ms : list mapping) (a : Z) (w : World) : World :=
  {| files := files w; fds := fds w; next_fd := next_fd w; mappings := ms;
     next_addr := a; advised := advised w; faults := faults w |}.

Definition set_advised (l : list madvise_call) (w : World) : World :=
  {| files := files w; fds := fds w; next_fd := next_fd w; mappings := mappings w;
     next_addr := next_addr w; advised := l; faults := faults w |}.

Definition set_faults (l : list bool) (w : World) : World :=
  {| files := files w; fds := fds w; next_fd := next_fd w; mappings := mappings w;
     next_addr := next_addr w; advised := advised w; faults := l |}.

Definition pop_fault (w : World) : bool * World :=
  match faults w with
  | [] => (false, w)
  | b :: l => (b, set_faults l w)
  end.

Definition file_length (c : list byte) : Z := Z.of_nat (length c).

(** The descriptor a successful [open] returns: the process's next free
    one, never negative. *)
Definition alloc_fd (e : fd_entry) (w : World) : Z * World :=
  let fd := Z.max 0 (next_fd w) in
  (fd, set_fds (<[fd := e]> (fds w)) (fd + 1) w).

(** [::open(path, flags, 0600)]: [-1] on failure.  Without [O_CREAT] the
    file has to exist; [O_TRUNC] empties it. *)
Definition sys_open (path : string) (fl : oflags) (w : World) : Z * World :=
  let '(fault, w) := pop_fault w in
  if fault then (-1, w) else
  let e := {| fd_path := path; fd_rdwr := o_rdwr fl |} in
  match files w !! path with
  | None =>
      if o_creat fl then alloc_fd e (set_files (<[path := []]> (files w)) w)
      else (-1, w)
  | Some _ =>
      if o_trunc fl && o_rdwr fl
      then alloc_fd e (set_files (<[path := []]> (files w)) w)
      else alloc_fd e w
  end.

(** [fstat(fd, &fs)]: [None] stands for the return value [-1]. *)
Definition sys_fstat (fd : Z) (w : World) : option stat * World :=
  let '(fault, w) := pop_fault w in
  if fault then (None, w) else
  match fds w !! fd with
  | None => (None, w)
  | Some e =>
      match files w !! fd_path e with
      | None => (None, w)
      | Some c => (Some {| st_size := file_length c |}, w)
      end
  end.

(** [ftruncate(fd, len)]: shrinks the file or extends it with zero bytes.
    [len] is received as the signed [off_t], so a [size_t] with its top bit
    set arrives negative and is refused ([EINVAL]). *)
Definition sys_ftruncate `{Platform} (fd : Z) (len : Z) (w : World) : Z * World :=
  let '(fault, w) := pop_fault w in
  if fault then (-1, w) else
  match fds w !! fd with
  | None => (-1, w)
  | Some e =>
      if negb (fd_rdwr e) || (2 ^ (size_bits - 1) <=? len) then (-1, w) else
      match files w !! fd_path e with
      | None => (-1, w)
      | Some c =>
          (0, set_files (<[fd_path e := resize (Z.to_nat len) Byte.x00 c]> (files w)) w)
      end
  end.

(** [mmap(NULL, len, prot, MAP_SHARED, fd, 0)]: the base address of the new
    mapping, or [MAP_FAILED].  A zero length is refused ([EINVAL]), so is a
    writable shared mapping of a descriptor not opened for writing
    ([EACCES]), and a request that does not fit below [MAP_FAILED]
    ([ENOMEM]). *)
Definition sys_mmap `{Platform} (len : Z) (p : prot) (fd : Z) (w : World) : Z * World :=
  let '(fault, w) := pop_fault w in
  if fault then (MAP_FAILED, w) else
  match fds w !! fd with
  | None => (MAP_FAILED, w)
  | Some e =>
      let base := round_up (next_addr w) in
      if (len <=? 0) || (prot_writes p && negb (fd_rdwr e))
         || (base <=? 0) || (MAP_FAILED <=? base + round_up len)
      then (MAP_FAILED, w)
      else
        let m := {| map_base := base; map_len := len;
                    map_path := fd_path e; map_write := prot_writes p |} in
        (base, set_mappings (m :: mappings w) (base + round_up len) w)
  end.

Definition EINVAL : Z := 22.

(** [posix_madvise(addr, len, advice)]: [0], or an error number.  The
    calls that went through are recorded in [advised]. *)
Definition sys_posix_madvise (addr len adv : Z) (w : World) : Z * World :=
  let '(fault, w) := pop_fault w in
  if fault then (EINVAL, w) else
  if (adv <? 0) || (4 <? adv) then (EINVAL, w) else
  (0, set_advised ({| adv_addr := addr; adv_len := len; adv_advice := adv |} :: advised w) w).

(** [munmap(addr, len)]: drops the mappings that start in
    [[addr, addr + len)]; [addr] has to be page aligned and [len] positive. *)
Definition sys_munmap (addr len : Z) (w : World) : Z * World :=
  let '(fault, w) := pop_fault w in
  if fault then (-1, w) else
  if negb (addr mod page_size =? 0) || (len <=? 0) then (-1, w) else
  let keep m := negb ((addr <=? map_base m) && (map_base m <? addr + len)) in
  (0, set_mappings (filter (λ m, keep m = true) (mappings w)) (next_addr w) w).

(** [::close(fd)]: the descriptor is released whatever the call returns. *)
Definition sys_close (fd : Z) (w : World) : Z * World :=
  let '(fault, w) := pop_fault w in
  (if fault then -1 else 0, set_fds (delete fd (fds w)) (next_fd w) w).

(** ** Memory: shared mappings are windows onto the files *)

Definition covers (a : Z) (m : mapping) : bool :=
  (map_base m <=? a) && (a <? map_base m + round_up (map_len m)).

(** Reading the byte at address [a].  [None] is a fault: no mapping there
    ([SIGSEGV]), or a page of the mapping wholly behind the end of the file
    ([SIGBUS]).  The rest of the file's last page reads as zero. *)
Definition peek (w : World) (a : Z) : option byte :=
  m ← List.find (covers a) (mappings w);
  c ← files w !! map_path m;
  let off := a - map_base m in
  if off <? file_length c then c !! Z.to_nat off
  else if off <? round_up (file_length c) then Some Byte.x00
  else None.

(** Writing the byte at address [a]: it reaches the file when it lies
    within the file's length; in the rest of the last page it is lost. *)
Definition poke (w : World) (a : Z) (b : byte) : option World :=
  m ← List.find (covers a) (mappings w);
  c ← files w !! map_path m;
  let off := a - map_base m in
  if negb (map_write m) then None
  else if off <? file_length c
  then Some (set_files (<[map_path m := <[Z.to_nat off := b]> c]> (files w)) w)
  else if off <? round_up (file_length c) then Some w
  else None.

Fixpoint load_bytes (w : World) (a : Z) (k : nat) : option (list byte) :=
  match k with
  | O => Some []
  | S k => b ← peek w a; bs ← load_bytes w (a + 1) k; Some (b :: bs)
  end.

Fixpoint store_bytes (w : World) (a : Z) (bs : list byte) : option World :=
  match bs with
  | [] => Some w
  | b :: bs => w' ← poke w a b; store_bytes w' (a + 1) bs
  end.

(** [*p] read as a [T], and [*p = x]. *)
Definition load {T} `{POD T} (w : World) (p : Z) : option T :=
  of_bytes <$> load_bytes w p (Z.to_nat (sizeof T)).

Definition store {T} `{POD T} (w : World) (p : Z) (x : T) : option World :=
  store_bytes w p (to_bytes x).

(** [p + k] on a [T*]. *)
Definition ptr_add {T} `{Platform} `{POD T} (p k : Z) : Z :=
  to_size_t (p + k * sizeof T).

(** What an expression of type [T] denotes: a function returning [T] gives
    a temporary holding a copy, one returning [T&] (or a subscript [p[i]])
    names the object at an address. *)
Inductive value (T : Type) : Type :=
  | temporary (x : T)
  | object_at (addr : Z).
Global Arguments temporary {T} x.
Global Arguments object_at {T} addr.

(** [e = x]: assigning to a temporary changes the temporary, which is then
    discarded; assigning to an object stores into memory. *)
Definition assign_to {T} `{POD T} (e : value T) (x : T) (w : World) : option World :=
  match e with
  | temporary _ => Some w
  | object_at a => store w a x
  end.

(** [T y = e]: the value read from an expression. *)
Definition read_from {T} `{POD T} (e : value T) (w : World) : option T :=
  match e with
  | temporary x => Some x
  | object_at a => load w a
  end.

(** [p[i]] *)
Definition subscript {T} `{Platform} `{POD T} (p i : Z) : value T :=
  object_at (ptr_add (T:=T) p i).

(** ** Member functions: state and exceptions *)

Inductive exn := runtime_error (what : string).

Inductive res (A : Type) : Type :=
  | Ret (a : A)
  | Throw (e : exn).
Global Arguments Ret {A} a.
Global Arguments Throw {A} e.

(** A computation on a state [S] that returns or throws; the state
    reached at a [throw] is kept. *)
Definition M (S A : Type) : Type := S → res A * S.

Global Instance M_ret {S} : MRet (M S) := λ A a s, (Ret a, s).

Global Instance M_bind {S} : MBind (M S) := λ A B f m s,
  match m s with
  | (Ret a, s') => f a s'
  | (Throw e, s') => (Throw e, s')
  end.

Definition throw {S A} (e : exn) : M S A := λ s, (Throw e, s).

(** A system call made from a member function. *)
Definition call {V A} (f : World → A * World) : M (V * World) A :=
  λ s, (Ret (f s.2).1, (s.1, (f s.2).2)).

(** Reading and assigning the members of [*this]. *)
Definition this {V} : M (V * World) V := λ s, (Ret s.1, s).

Definition assign {V} (f : V → V) : M (V * World) unit :=
  λ s, (Ret (), (f s.1, s.2)).

(** How the destruction of a view ends.  A destructor is [noexcept]: when
    an exception leaves it [std::terminate] is called and the process
    ends; otherwise the object is gone and the system goes on. *)
Inductive destruction : Type :=
  | destroyed (w : World)
  | terminated.

(** How a loop over a view ends. *)
Inductive outcome (A : Type) : Type :=
  | Done (a : A)
  | Fault
  | OutOfFuel.
Global Arguments Done {A} a.
Global Arguments Fault {A}.
Global Arguments OutOfFuel {A}.

(** ** [mm::file_source<T>]: the read view *)

Module file_source.
Section file_source.
Context `{Platform} {T : Type} `{POD T}.

Record t := mk { m_fd : Z; m_size : Z; m_data : Z }.

Definition set_fd (x : Z) (v : t) : t := mk x (m_size v) (m_data v).
Definition set_size (x : Z) (v : t) : t := mk (m_fd v) x (m_data v).
Definition set_data (x : Z) (v : t) : t := mk (m_fd v) (m_size v) x.

Definition init : M (t * World) unit :=
  assign (set_fd (-1));;
  assign (set_size 0);;
  assign (set_data nullptr).

Definition is_open (v : t) : bool := negb (m_fd v =? -1).

(** The members as [init] leaves them. *)
Definition closed_state : t := mk (-1) 0 nullptr.

Definition open (path : string) (adv : Z) : M (t * World) unit :=
  fd ← call (sys_open path O_RDONLY);
  assign (set_fd fd);;
  v ← this;
  if m_fd v =? -1 then throw (runtime_error "cannot open file") else
  fs ← call (sys_fstat (m_fd v));
  match fs with
  | None => throw (runtime_error "cannot stat file")
  | Some fs =>
      assign (set_size (to_size_t (st_size fs)));;
      v ← this;
      p ← call (sys_mmap (m_size v) PROT_READ (m_fd v));
      assign (set_data p);;
      v ← this;
      if m_data v =? MAP_FAILED then throw (runtime_error "mmap failed") else
      r ← call (sys_posix_madvise (m_data v) (m_size v ÷ sizeof T) adv);
      if negb (r =? 0) then throw (runtime_error "madvise failed") else
      mret ()
  end.

Definition close : M (t * World) unit :=
  v ← this;
  if is_open v then
    r ← call (sys_munmap (m_data v) (m_size v));
    if r =? -1
    then throw (runtime_error "munmap failed when closing file_source")
    else
      call (sys_close (m_fd v));;
      init
  else mret ().

Definition bytes (v : t) : Z := m_size v.

Definition size (v : t) : Z := m_size v ÷ sizeof T.

Definition data (v : t) : Z := m_data v.

(** [file_source()] and [file_source(path, adv)] *)
Definition default_ctor : M (t * World) unit := init.

Definition ctor (path : string) (adv : Z) : M (t * World) unit :=
  init;; open path adv.

(** [~file_source() { close(); }] *)
Definition dtor (s : t * World) : destruction :=
  match close s with
  | (Ret _, (_, w)) => destroyed w
  | (Throw _, _) => terminated
  end.

Record iterator := mk_iterator { m_ptr : Z }.

Definition iterator_ctor (addr offset : Z) : iterator :=
  mk_iterator (ptr_add (T:=T) addr offset).

(** [T operator*() { return *m_ptr; }] *)
Definition deref (it : iterator) (w : World) : option (value T) :=
  temporary <$> load w (m_ptr it).

Definition incr (it : iterator) : iterator :=
  mk_iterator (ptr_add (T:=T) (m_ptr it) 1).

Definition iterator_eq (it rhs : iterator) : bool := m_ptr it =? m_ptr rhs.

Definition iterator_ne (it rhs : iterator) : bool := negb (iterator_eq it rhs).

Definition begin_ (v : t) : iterator := iterator_ctor (m_data v) 0.

Definition end_ (v : t) : iterator := iterator_ctor (m_data v) (size v).

(** [for (it = first; it != last; ++it) out.push_back( *it );] *)
Fixpoint traverse (fuel : nat) (w : World) (it last : iterator) : outcome (list T) :=
  if iterator_ne it last then
    match fuel with
    | O => OutOfFuel
    | S fuel =>
        match deref it w ≫= (λ e, read_from e w) with
        | None => Fault
        | Some x =>
            match traverse fuel w (incr it) last with
            | Done xs => Done (x :: xs)
            | o => o
            end
        end
    end
  else Done [].

(** [for (auto x : v) out.push_back(x);] *)
Definition iterate (fuel : nat) (v : t) (w : World) : outcome (list T) :=
  traverse fuel w (begin_ v) (end_ v).

End file_source.
Global Arguments t : clear implicits.
Global Arguments iterator : clear implicits.
End file_source.

(** ** [mm::file_sink<T>]: the write view *)

Module file_sink.
Section file_sink.
Context `{Platform} {T : Type} `{POD T}.

Record t := mk { m_fd : Z; m_size : Z; m_data : Z }.

Definition set_fd (x : Z) (v : t) : t := mk x (m_size v) (m_data v).
Definition set_size (x : Z) (v : t) : t := mk (m_fd v) x (m_data v).
Definition set_data (x : Z) (v : t) : t := mk (m_fd v) (m_size v) x.

Definition init : M (t * World) unit :=
  assign (set_fd (-1));;
  assign (set_size 0);;
  assign (set_data nullptr).

Definition is_open (v : t) : bool := negb (m_fd v =? -1).

(** The members as [init] leaves them. *)
Definition closed_state : t := mk (-1) 0 nullptr.

Definition open (path : string) (n : Z) : M (t * World) unit :=
  fd ← call (sys_open path O_RDWR_CREAT_TRUNC);
  assign (set_fd fd);;
  v ← this;
  if m_fd v =? -1 then throw (runtime_error "cannot open file") else
  assign (set_size (to_size_t (n * sizeof T)));;
  v ← this;
  (* the value ftruncate returns is not looked at *)
  call (sys_ftruncate (m_fd v) (m_size v));;
  p ← call (sys_mmap (m_size v) PROT_READ_WRITE (m_fd v));
  assign (set_data p);;
  v ← this;
  if m_data v =? MAP_FAILED then throw (runtime_error "mmap failed") else
  mret ().

Definition close : M (t * World) unit :=
  v ← this;
  if is_open v then
    r ← call (sys_munmap (m_data v) (m_size v));
    if r =? -1
    then throw (runtime_error "munmap failed when closing file_sink")
    else
      call (sys_close (m_fd v));;
      init
  else mret ().

Definition bytes (v : t) : Z := m_size v.

Definition size (v : t) : Z := m_size v ÷ sizeof T.

Definition data (v : t) : Z := m_data v.

(** [file_sink()] and [file_sink(path, n)] *)
Definition default_ctor : M (t * World) unit := init.

Definition ctor (path : string) (n : Z) : M (t * World) unit :=
  init;; open path n.

(** [~file_sink() { close(); }] *)
Definition dtor (s : t * World) : destruction :=
  match close s with
  | (Ret _, (_, w)) => destroyed w
  | (Throw _, _) => terminated
  end.

Record iterator := mk_iterator { m_ptr : Z }.

Definition iterator_ctor (addr offset : Z) : iterator :=
  mk_iterator (ptr_add (T:=T) addr offset).

(** [T operator*() { return *m_ptr; }]: the return type is [T], as in the
    read view, not [T&]. *)
Definition deref (it : iterator) (w : World) : option (value T) :=
  temporary <$> load w (m_ptr it).

Definition incr (it : iterator) : iterator :=
  mk_iterator (ptr_add (T:=T) (m_ptr it) 1).

Definition iterator_eq (it rhs : iterator) : bool := m_ptr it =? m_ptr rhs.

Definition iterator_ne (it rhs : iterator) : bool := negb (iterator_eq it rhs).

Definition begin_ (v : t) : iterator := iterator_ctor (m_data v) 0.

Definition end_ (v : t) : iterator := iterator_ctor (m_data v) (size v).

(** [for (it = first; it != last; ++it) out.push_back( *it );] *)
Fixpoint traverse (fuel : nat) (w : World) (it last : iterator) : outcome (list T) :=
  if iterator_ne it last then
    match fuel with
    | O => OutOfFuel
    | S fuel =>
        match deref it w ≫= (λ e, read_from e w) with
        | None => Fault
        | Some x =>
            match traverse fuel w (incr it) last with
            | Done xs => Done (x :: xs)
            | o => o
            end
        end
    end
  else Done [].

Definition iterate (fuel : nat) (v : t) (w : World) : outcome (list T) :=
  traverse fuel w (begin_ v) (end_ v).

(** [*it = x;] *)
Definition assign_through (it : iterator) (x : T) (w : World) : option World :=
  e ← deref it w; assign_to e x w.

(** [auto* p = v.data(); for (i = 0; i != xs.size(); ++i) p[i + from] = xs[i];] *)
Fixpoint fill (p : Z) (from : Z) (xs : list T) (w : World) : option World :=
  match xs with
  | [] => Some w
  | x :: xs => w' ← assign_to (subscript p from) x w; fill p (from + 1) xs w'
  end.

(** The same loop written with the iterator: [it = v.begin();] then
    [*it = x; ++it;] for each [x]. *)
Fixpoint fill_through (it : iterator) (xs : list T) (w : World) : option World :=
  match xs with
  | [] => Some w
  | x :: xs => w' ← assign_through it x w; fill_through (incr it) xs w'
  end.

End file_sink.
Global Arguments t : clear implicits.
Global Arguments iterator : clear implicits.
End file_sink.

(** ** Element types used in the examples *)

(** [char] *)
Program Instance char_POD : POD byte := {|
  sizeof := 1;
  to_bytes := λ b, [b];
  of_bytes := λ l, default Byte.x00 (head l)
|}.
Next Obligation. done. Qed.
Next Obligation. done. Qed.
Next Obligation. done. Qed.

(** [uint32_t], by its four bytes in address order. *)
Record uint32 := mk_uint32 { b0 : byte; b1 : byte; b2 : byte; b3 : byte }.

Definition byte_of_Z (z : Z) : byte :=
  default Byte.x00 (Byte.of_N (Z.to_N (z mod 256))).

(** Little-endian, as on the usual hosts. *)
Definition uint32_of_Z (z : Z) : uint32 :=
  mk_uint32 (byte_of_Z z) (byte_of_Z (z / 256))
            (byte_of_Z (z / 65536)) (byte_of_Z (z / 16777216)).

Program Instance uint32_POD : POD uint32 := {|
  sizeof := 4;
  to_bytes := λ x, [b0 x; b1 x; b2 x; b3 x];
  of_bytes := λ l,
    mk_uint32 (default Byte.x00 (l !! 0%nat)) (default Byte.x00 (l !! 1%nat))
              (default Byte.x00 (l !! 2%nat)) (default Byte.x00 (l !! 3%nat))
|}.
Next Obligation. done. Qed.
Next Obligation. done. Qed.
Next Obligation. by intros []. Qed.

Program Instance LP64 : Platform := {| size_bits := 64 |}.
Next Obligation. done. Qed.

(** A machine with nothing on it: no files, and descriptors 0-2 taken. *)
Definition boot : World :=
  {| files := ∅; fds := ∅; next_fd := 3; mappings := [];
     next_addr := 65536; advised := []; faults := [] |}.

Definition with_faults (l : list bool) (w : World) : World := set_faults l w.

Definition with_file (path : string) (c : list byte) (w : World) : World :=
  set_files (<[path := c]> (files w)) w.

(** ** Example runs *)

(** A disk with one file of two [uint32_t], 10 and 20. *)
Definition disk : World :=
  with_file "f" [Byte.x0a; Byte.x00; Byte.x00; Byte.x00;
                 Byte.x14; Byte.x00; Byte.x00; Byte.x00] boot.

(** [mm::file_source<uint32_t> in; in.open("f", advice::sequential);] *)
Definition reading : res unit * (file_source.t * World) :=
  file_source.open (T:=uint32) "f" advice.sequential
    (file_source.closed_state, disk).

(** [mm::file_sink<uint32_t> out; out.open("f", 2);] *)
Definition writing : res unit * (file_sink.t * World) :=
  file_sink.open (T:=uint32) "f" 2 (file_sink.closed_state, boot).

(** The scenario of writing 10, 20, 30, 40 and reading them back. *)
Definition scenario_values : list uint32 := map uint32_of_Z [10; 20; 30; 40].

Definition scenario_opened : res unit * (file_sink.t * World) :=
  file_sink.open (T:=uint32) "data.bin" 4 (file_sink.closed_state, boot).

Definition scenario_filled : World :=
  default boot
    (file_sink.fill (file_sink.data scenario_opened.2.1) 0 scenario_values
       scenario_opened.2.2).

Definition scenario_closed : res unit * (file_sink.t * World) :=
  file_sink.close (scenario_opened.2.1, scenario_filled).

Definition scenario_reopened : res unit * (file_source.t * World) :=
  file_source.open (T:=uint32) "data.bin" advice.normal
    (file_source.closed_state, scenario_closed.2.2).

(** [open("f", 2^62 + 1)] on [uint32_t]: the byte count is [2^64 + 4]. *)
Definition wrapping : res unit * (file_sink.t * World) :=
  file_sink.open (T:=uint32) "f" (2 ^ 62 + 1) (file_sink.closed_state, boot).

(** ** Callers' loops over the iterators *)

(** [++it], [k] times. *)
Definition source_advance {T} `{Platform} `{POD T}
    (k : nat) (it : file_source.iterator) : file_source.iterator :=
  Nat.iter k (file_source.incr (T:=T)) it.

Definition sink_advance {T} `{Platform} `{POD T}
    (k : nat) (it : file_sink.iterator) : file_sink.iterator :=
  Nat.iter k (file_sink.incr (T:=T)) it.

(** A file of two [uint32_t] (10, 20) followed by two more bytes. *)
Definition ragged_disk : World :=
  with_file "f" [Byte.x0a; Byte.x00; Byte.x00; Byte.x00;
                 Byte.x14; Byte.x00; Byte.x00; Byte.x00;
                 Byte.x1e; Byte.x00] boot.

Definition ragged_reading : res unit * (file_source.t * World) :=
  file_source.open (T:=uint32) "f" advice.normal
    (file_source.closed_state, ragged_disk).

(** [out.open("f", 2); out.data()[0] = 10; out.data()[1] = 20;] *)
Definition written : World :=
  default boot
    (file_sink.fill (T:=uint32) (file_sink.data writing.2.1) 0
       (map uint32_of_Z [10; 20]) writing.2.2).

(** [in.open("g")] on the read view above, still open, where no file "g"
    exists: the call throws, with [m_fd] set to -1. *)
Definition reopened : res unit * (file_source.t * World) :=
  file_source.open (T:=uint32) "g" advice.normal reading.2.

(** The scenario with the values assigned through the iterator instead:
    [it = out.begin();] then [*it = x; ++it;] for each value. *)
Definition scenario_assigned : World :=
  default boot
    (file_sink.fill_through (T:=uint32)
       (file_sink.begin_ (T:=uint32) scenario_opened.2.1) scenario_values
       scenario_opened.2.2).

Definition scenario_assigned_closed : res unit * (file_sink.t * World) :=
  file_sink.close (scenario_opened.2.1, scenario_assigned).

Definition scenario_assigned_reopened : res unit * (file_source.t * World) :=
  file_source.open (T:=uint32) "data.bin" advice.normal
    (file_source.closed_state, scenario_assigned_closed.2.2).

(** * Properties *)

(** ** Arithmetic of sizes and pages *)

Lemma round_up_ge (n : Z) : n ≤ round_up n.
Proof.
  unfold round_up, page_size.
  pose proof (Z.div_mod (n + 4096 - 1) 4096 ltac:(lia)).
  pose proof (Z.mod_pos_bound (n + 4096 - 1) 4096 ltac:(lia)). lia.
Qed.

Lemma round_up_0 : round_up 0 = 0.
Proof. reflexivity. Qed.

Lemma to_size_t_range `{Platform} (z : Z) : 0 ≤ to_size_t z < 2 ^ size_bits.
Proof.
  unfold to_size_t. apply Z.mod_pos_bound.
  apply Z.pow_pos_nonneg; [lia|]. pose proof size_bits_pos. lia.
Qed.

Lemma to_size_t_small `{Platform} (z : Z) :
  0 ≤ z < 2 ^ size_bits → to_size_t z = z.
Proof. intros. unfold to_size_t. by apply Z.mod_small. Qed.

Lemma MAP_FAILED_eq `{Platform} : MAP_FAILED = 2 ^ size_bits - 1.
Proof.
  unfold MAP_FAILED, to_size_t.
  assert (0 < 2 ^ size_bits).
  { apply Z.pow_pos_nonneg; [lia|]. pose proof size_bits_pos. lia. }
  symmetry. apply (Z.mod_unique_pos _ _ (-1)); lia.
Qed.

(** ** What the system calls leave alone *)

Lemma pop_fault_world (w : World) :
  ∃ l, (pop_fault w).2 = set_faults l w.
Proof.
  unfold pop_fault. destruct w as [? ? ? ? ? ? [|b l]]; simpl; eauto.
Qed.

(** Destructs the schedule lookup at the head of a system call. *)
Ltac step_fault w f w' :=
  let l := fresh "l" in
  let E := fresh "E" in
  destruct (pop_fault_world w) as [l E];
  destruct (pop_fault w) as [f w']; simpl in E; subst w'.

Lemma sys_open_rdonly (path : string) (w w' : World) (fd : Z) :
  sys_open path O_RDONLY w = (fd, w') →
  files w' = files w ∧ mappings w' = mappings w ∧ advised w' = advised w
  ∧ next_addr w' = next_addr w
  ∧ (fd ≠ -1 →
     0 ≤ fd ∧ is_Some (files w !! path)
     ∧ fds w' !! fd = Some {| fd_path := path; fd_rdwr := false |}).
Proof.
  unfold sys_open. step_fault w f w1.
  destruct f; [by intros [= <- <-]|]. simpl.
  destruct (files w !! path) as [c|] eqn:Hc; simpl; intros [= <- <-]; simpl.
  - split_and!; try done. intros _. split_and!; [lia|eauto|].
    by rewrite lookup_insert_eq.
  - done.
Qed.

Lemma sys_open_creat (path : string) (w w' : World) (fd : Z) :
  sys_open path O_RDWR_CREAT_TRUNC w = (fd, w') →
  mappings w' = mappings w ∧ advised w' = advised w
  ∧ next_addr w' = next_addr w
  ∧ (fd ≠ -1 →
     0 ≤ fd ∧ files w' = <[path := []]> (files w)
     ∧ fds w' !! fd = Some {| fd_path := path; fd_rdwr := true |}).
Proof.
  unfold sys_open. step_fault w f w1.
  destruct f; [by intros [= <- <-]|]. simpl.
  destruct (files w !! path) as [c|] eqn:Hc; simpl; intros [= <- <-]; simpl;
    (split_and!; try done; intros _; split_and!; [lia|done|];
     by rewrite lookup_insert_eq).
Qed.

Lemma sys_fstat_some (fd : Z) (w w' : World) (fs : stat) :
  sys_fstat fd w = (Some fs, w') →
  files w' = files w ∧ fds w' = fds w ∧ mappings w' = mappings w
  ∧ advised w' = advised w ∧ next_addr w' = next_addr w
  ∧ ∃ e c, fds w !! fd = Some e ∧ files w !! fd_path e = Some c
           ∧ st_size fs = file_length c.
Proof.
  unfold sys_fstat. step_fault w f w1.
  destruct f; [done|]. simpl.
  destruct (fds w !! fd) as [e|] eqn:He; [|done].
  destruct (files w !! fd_path e) as [c|] eqn:Hc; [|done].
  intros [= <- <-]. simpl. eauto 10.
Qed.

Lemma sys_ftruncate_world `{Platform} (fd len : Z) (w w' : World) (r : Z) :
  sys_ftruncate fd len w = (r, w') →
  fds w' = fds w ∧ mappings w' = mappings w ∧ advised w' = advised w
  ∧ next_addr w' = next_addr w
  ∧ (files w' = files w
     ∨ ∃ e c, fds w !! fd = Some e ∧ files w !! fd_path e = Some c
              ∧ files w' = <[fd_path e := resize (Z.to_nat len) Byte.x00 c]> (files w)).
Proof.
  unfold sys_ftruncate. step_fault w f w1.
  destruct f; [intros [= <- <-]; simpl; eauto 10|]. simpl.
  destruct (fds w !! fd) as [e|] eqn:He; [|intros [= <- <-]; simpl; eauto 10].
  destruct (negb (fd_rdwr e) || _); [intros [= <- <-]; simpl; eauto 10|].
  destruct (files w !! fd_path e) as [c|] eqn:Hc; intros [= <- <-]; simpl;
    eauto 12.
Qed.

Lemma sys_mmap_ok `{Platform} (len : Z) (p : prot) (fd : Z) (w w' : World) (a : Z) :
  sys_mmap len p fd w = (a, w') → a ≠ MAP_FAILED →
  files w' = files w ∧ fds w' = fds w ∧ advised w' = advised w
  ∧ 0 < len ∧ 0 < a ∧ a + round_up len < MAP_FAILED
  ∧ ∃ e, fds w !! fd = Some e
         ∧ mappings w' = {| map_base := a; map_len := len;
                            map_path := fd_path e;
                            map_write := prot_writes p |} :: mappings w.
Proof.
  unfold sys_mmap. step_fault w f w1.
  destruct f; [by intros [= <- <-]|]. simpl.
  destruct (fds w !! fd) as [e|] eqn:He; [|by intros [= <- <-]].
  destruct (Z.leb_spec len 0); simpl; [by intros [= <- <-]|].
  destruct (prot_writes p && negb (fd_rdwr e)); simpl; [by intros [= <- <-]|].
  destruct (Z.leb_spec (round_up (next_addr w)) 0); simpl; [by intros [= <- <-]|].
  destruct (Z.leb_spec MAP_FAILED (round_up (next_addr w) + round_up len)); simpl;
    [by intros [= <- <-]|].
  intros [= <- <-] _. simpl. repeat split; try done. eauto.
Qed.

Lemma sys_posix_madvise_ok (addr len adv : Z) (w w' : World) :
  sys_posix_madvise addr len adv w = (0, w') →
  files w' = files w ∧ fds w' = fds w ∧ mappings w' = mappings w
  ∧ advised w' =
      {| adv_addr := addr; adv_len := len; adv_advice := adv |} :: advised w.
Proof.
  unfold sys_posix_madvise. step_fault w f w1.
  destruct f; [done|]. simpl.
  destruct ((adv <? 0) || (4 <? adv)); [done|].
  by intros [= <-].
Qed.

Lemma sys_munmap_world (addr len : Z) (w w' : World) (r : Z) :
  sys_munmap addr len w = (r, w') →
  files w' = files w ∧ fds w' = fds w ∧ advised w' = advised w
  ∧ (r = -1 → mappings w' = mappings w).
Proof.
  unfold sys_munmap. step_fault w f w1.
  destruct f; [by intros [= <- <-]|]. simpl.
  destruct (negb (addr mod page_size =? 0) || (len <=? 0));
    by intros [= <- <-].
Qed.

Lemma sys_close_world (fd : Z) (w w' : World) (r : Z) :
  sys_close fd w = (r, w') →
  files w' = files w ∧ mappings w' = mappings w ∧ advised w' = advised w.
Proof.
  unfold sys_close. step_fault w f w1. by intros [= <- <-].
Qed.

(** The descriptor table is touched by [open] and [close] only. *)
Lemma sys_fstat_fds (fd : Z) (w w' : World) (r : option stat) :
  sys_fstat fd w = (r, w') → fds w' = fds w.
Proof.
  unfold sys_fstat. step_fault w f w1. intros ?.
  repeat case_match; by simplify_eq/=.
Qed.

Lemma sys_mmap_fds `{Platform} (len : Z) (p : prot) (fd : Z) (w w' : World) (a : Z) :
  sys_mmap len p fd w = (a, w') → fds w' = fds w.
Proof.
  unfold sys_mmap. step_fault w f w1. intros ?.
  repeat case_match; by simplify_eq/=.
Qed.

Lemma sys_posix_madvise_fds (addr len adv : Z) (w w' : World) (r : Z) :
  sys_posix_madvise addr len adv w = (r, w') → fds w' = fds w.
Proof.
  unfold sys_posix_madvise. step_fault w f w1. intros ?.
  repeat case_match; by simplify_eq/=.
Qed.

Lemma sys_ftruncate_fds `{Platform} (fd len : Z) (w w' : World) (r : Z) :
  sys_ftruncate fd len w = (r, w') → fds w' = fds w.
Proof. intros Hs. by apply sys_ftruncate_world in Hs as (? & _). Qed.

(** ** Running the member functions *)

Ltac run_monad :=
  cbv [mbind M_bind mret M_ret call assign this throw] in *;
  cbn [fst snd
       file_source.m_fd file_source.m_size file_source.m_data
       file_source.set_fd file_source.set_size file_source.set_data
       file_sink.m_fd file_sink.m_size file_sink.m_data
       file_sink.set_fd file_sink.set_size file_sink.set_data] in *.

Section source_runs.
Context `{Platform} {T : Type} `{POD T}.
Import file_source.

Lemma source_init_run (v : t) (w : World) :
  init (v, w) = (Ret (), (closed_state, w)).
Proof. reflexivity. Qed.

(** The constructor with a path is [open] on the closed state. *)
Lemma source_ctor_run path adv (v : t) (w : World) :
  ctor (T:=T) path adv (v, w) = open (T:=T) path adv (closed_state, w).
Proof. reflexivity. Qed.

(** A call of [open] that returns went through all four system calls. *)
Lemma source_open_ret path adv v0 w0 v w :
  open (T:=T) path adv (v0, w0) = (Ret (), (v, w)) →
  ∃ fd w1 fs w2 w3,
    sys_open path O_RDONLY w0 = (fd, w1) ∧ fd ≠ -1
    ∧ sys_fstat fd w1 = (Some fs, w2)
    ∧ sys_mmap (to_size_t (st_size fs)) PROT_READ fd w2 = (m_data v, w3)
    ∧ m_data v ≠ MAP_FAILED
    ∧ sys_posix_madvise (m_data v) (to_size_t (st_size fs) ÷ sizeof T) adv w3
      = (0, w)
    ∧ v = mk fd (to_size_t (st_size fs)) (m_data v).
Proof.
  unfold open. run_monad.
  destruct (sys_open path O_RDONLY w0) as [fd w1] eqn:Ho. run_monad.
  destruct (Z.eqb_spec fd (-1)) as [->|Hfd]; [done|]. run_monad.
  destruct (sys_fstat fd w1) as [[fs|] w2] eqn:Hs; [|done]. run_monad.
  destruct (sys_mmap _ _ _ w2) as [p w3] eqn:Hm. run_monad.
  destruct (Z.eqb_spec p MAP_FAILED) as [->|Hp]; [done|]. run_monad.
  destruct (sys_posix_madvise _ _ _ w3) as [r w4] eqn:Ha. run_monad.
  destruct (Z.eqb_spec r 0) as [->|Hr]; simpl; [|done].
  intros [= <- <-]. exists fd, w1, fs, w2, w3. simpl. done.
Qed.

(** A call of [open] that throws: either [::open] failed and only [m_fd]
    was assigned, or a later step failed and [m_fd] holds the descriptor,
    which is still open. *)
Lemma source_open_throw path adv v0 w0 e v w :
  open (T:=T) path adv (v0, w0) = (Throw e, (v, w)) →
  (e = runtime_error "cannot open file" ∧ v = set_fd (-1) v0)
  ∨ (e ≠ runtime_error "cannot open file" ∧ m_fd v ≠ -1
     ∧ is_Some (fds w !! m_fd v)).
Proof.
  unfold open. run_monad.
  destruct (sys_open path O_RDONLY w0) as [fd w1] eqn:Ho. run_monad.
  destruct (Z.eqb_spec fd (-1)) as [->|Hfd]; run_monad.
  { intros [= <- <- <-]. by left. }
  apply sys_open_rdonly in Ho as (_ & _ & _ & _ & Ho).
  destruct (Ho Hfd) as (_ & _ & Hfds).
  destruct (sys_fstat fd w1) as [[fs|] w2] eqn:Hs; run_monad.
  2:{ intros [= <- <- <-]. right. simpl. split_and!; [done..|].
      apply sys_fstat_fds in Hs as ->. eauto. }
  apply sys_fstat_fds in Hs as Hfd2.
  destruct (sys_mmap _ _ _ w2) as [p w3] eqn:Hm. run_monad.
  apply sys_mmap_fds in Hm as Hfd3.
  destruct (Z.eqb_spec p MAP_FAILED) as [->|Hp]; run_monad.
  { intros [= <- <- <-]. right. simpl. split_and!; [done..|].
    rewrite Hfd3, Hfd2. eauto. }
  destruct (sys_posix_madvise _ _ _ w3) as [r w4] eqn:Ha. run_monad.
  apply sys_posix_madvise_fds in Ha as Hfd4.
  destruct (Z.eqb_spec r 0) as [->|Hr]; simpl; [done|].
  intros [= <- <- <-]. right. simpl. split_and!; [done..|].
  rewrite Hfd4, Hfd3, Hfd2. eauto.
Qed.

(** [close], branch by branch. *)
Lemma source_close_run (v : t) (w : World) :
  close (v, w) =
    if is_open v then
      let r := sys_munmap (m_data v) (m_size v) w in
      if r.1 =? -1
      then (Throw (runtime_error "munmap failed when closing file_source"),
            (v, r.2))
      else (Ret (), (closed_state, (sys_close (m_fd v) r.2).2))
    else (Ret (), (v, w)).
Proof.
  unfold close. run_monad. destruct (is_open v); [|done]. run_monad.
  by destruct (_ =? -1).
Qed.

End source_runs.

Section sink_runs.
Context `{Platform} {T : Type} `{POD T}.
Import file_sink.

Lemma sink_init_run (v : t) (w : World) :
  init (v, w) = (Ret (), (closed_state, w)).
Proof. reflexivity. Qed.

Lemma sink_ctor_run path n (v : t) (w : World) :
  ctor (T:=T) path n (v, w) = open (T:=T) path n (closed_state, w).
Proof. reflexivity. Qed.

(** A call of [open] that returns: [::open] and [mmap] succeeded;
    nothing is known about [ftruncate]. *)
Lemma sink_open_ret path n v0 w0 v w :
  open (T:=T) path n (v0, w0) = (Ret (), (v, w)) →
  ∃ fd w1 r w2,
    sys_open path O_RDWR_CREAT_TRUNC w0 = (fd, w1) ∧ fd ≠ -1
    ∧ sys_ftruncate fd (to_size_t (n * sizeof T)) w1 = (r, w2)
    ∧ sys_mmap (to_size_t (n * sizeof T)) PROT_READ_WRITE fd w2 = (m_data v, w)
    ∧ m_data v ≠ MAP_FAILED
    ∧ v = mk fd (to_size_t (n * sizeof T)) (m_data v).
Proof.
  unfold open. run_monad.
  destruct (sys_open path O_RDWR_CREAT_TRUNC w0) as [fd w1] eqn:Ho. run_monad.
  destruct (Z.eqb_spec fd (-1)) as [->|Hfd]; [done|]. run_monad.
  destruct (sys_ftruncate _ _ w1) as [r w2] eqn:Ht. run_monad.
  destruct (sys_mmap _ _ _ w2) as [p w3] eqn:Hm. run_monad.
  destruct (Z.eqb_spec p MAP_FAILED) as [->|Hp]; [done|]. run_monad.
  intros [= <- <-]. exists fd, w1, r, w2. simpl. done.
Qed.

Lemma sink_open_throw path n v0 w0 e v w :
  open (T:=T) path n (v0, w0) = (Throw e, (v, w)) →
  (e = runtime_error "cannot open file" ∧ v = set_fd (-1) v0)
  ∨ (e ≠ runtime_error "cannot open file" ∧ m_fd v ≠ -1
     ∧ is_Some (fds w !! m_fd v)).
Proof.
  unfold open. run_monad.
  destruct (sys_open path O_RDWR_CREAT_TRUNC w0) as [fd w1] eqn:Ho. run_monad.
  destruct (Z.eqb_spec fd (-1)) as [->|Hfd]; run_monad.
  { intros [= <- <- <-]. by left. }
  apply sys_open_creat in Ho as (_ & _ & _ & Ho).
  destruct (Ho Hfd) as (_ & _ & Hfds).
  destruct (sys_ftruncate _ _ w1) as [r w2] eqn:Ht. run_monad.
  apply sys_ftruncate_fds in Ht as Hfd2.
  destruct (sys_mmap _ _ _ w2) as [p w3] eqn:Hm. run_monad.
  apply sys_mmap_fds in Hm as Hfd3.
  destruct (Z.eqb_spec p MAP_FAILED) as [->|Hp]; run_monad; [|done].
  intros [= <- <- <-]. right. simpl. split_and!; [done..|].
  rewrite Hfd3, Hfd2. eauto.
Qed.

Lemma sink_close_run (v : t) (w : World) :
  close (v, w) =
    if is_open v then
      let r := sys_munmap (m_data v) (m_size v) w in
      if r.1 =? -1
      then (Throw (runtime_error "munmap failed when closing file_sink"),
            (v, r.2))
      else (Ret (), (closed_state, (sys_close (m_fd v) r.2).2))
    else (Ret (), (v, w)).
Proof.
  unfold close. run_monad. destruct (is_open v); [|done]. run_monad.
  by destruct (_ =? -1).
Qed.

End sink_runs.

(** ** The closed state *)

Section closed_views.
Context `{Platform} {T : Type} `{POD T}.

Lemma quot_0_sizeof : 0 ÷ sizeof T = 0.
Proof. apply Z.quot_0_l. pose proof (sizeof_pos (T:=T)). lia. Qed.

(** A loop from an iterator to itself visits nothing, whatever the fuel. *)
Lemma source_traverse_empty (fuel : nat) (w : World) (it : file_source.iterator) :
  file_source.traverse (T:=T) fuel w it it = Done [].
Proof.
  assert (file_source.iterator_ne it it = false) as Hne.
  { unfold file_source.iterator_ne, file_source.iterator_eq.
    by rewrite Z.eqb_refl. }
  destruct fuel; simpl; by rewrite Hne.
Qed.

Lemma sink_traverse_empty (fuel : nat) (w : World) (it : file_sink.iterator) :
  file_sink.traverse (T:=T) fuel w it it = Done [].
Proof.
  assert (file_sink.iterator_ne it it = false) as Hne.
  { unfold file_sink.iterator_ne, file_sink.iterator_eq.
    by rewrite Z.eqb_refl. }
  destruct fuel; simpl; by rewrite Hne.
Qed.

Lemma source_closed_accessors (fuel : nat) (w : World) :
  let v := file_source.closed_state in
  file_source.is_open v = false ∧ file_source.bytes v = 0
  ∧ file_source.size (T:=T) v = 0 ∧ file_source.data v = nullptr
  ∧ file_source.begin_ (T:=T) v = file_source.end_ (T:=T) v
  ∧ file_source.iterate (T:=T) fuel v w = Done [].
Proof.
  simpl. unfold file_source.iterate, file_source.begin_, file_source.end_,
    file_source.size. simpl. rewrite quot_0_sizeof.
  split_and!; try done.
  apply source_traverse_empty.
Qed.

Lemma sink_closed_accessors (fuel : nat) (w : World) :
  let v := file_sink.closed_state in
  file_sink.is_open v = false ∧ file_sink.bytes v = 0
  ∧ file_sink.size (T:=T) v = 0 ∧ file_sink.data v = nullptr
  ∧ file_sink.begin_ (T:=T) v = file_sink.end_ (T:=T) v
  ∧ file_sink.iterate (T:=T) fuel v w = Done [].
Proof.
  simpl. unfold file_sink.iterate, file_sink.begin_, file_sink.end_,
    file_sink.size. simpl. rewrite quot_0_sizeof.
  split_and!; try done.
  apply sink_traverse_empty.
Qed.

(** A [close] of an open view that returns has run [init]. *)
Lemma source_close_ret_open (v0 v : file_source.t) (w0 w : World) :
  file_source.close (v0, w0) = (Ret (), (v, w)) →
  file_source.is_open v0 = true → v = file_source.closed_state.
Proof.
  rewrite source_close_run. intros Hc Ho. rewrite Ho in Hc. simpl in Hc.
  destruct (_ =? -1); by simplify_eq.
Qed.

Lemma sink_close_ret_open (v0 v : file_sink.t) (w0 w : World) :
  file_sink.close (v0, w0) = (Ret (), (v, w)) →
  file_sink.is_open v0 = true → v = file_sink.closed_state.
Proof.
  rewrite sink_close_run. intros Hc Ho. rewrite Ho in Hc. simpl in Hc.
  destruct (_ =? -1); by simplify_eq.
Qed.

(** C10, as the code has it: a view that was default-constructed, or
    that [close] has closed (a [close] that returned, on an open view or
    on one already in the fully closed state), answers every accessor
    without a mapping: [is_open()] is false, [bytes()] and [size()] are 0,
    [data()] is null, and [begin()] equals [end()], so that a loop over
    the view ends at once with no element visited.  On any other view
    whose [is_open()] is false, [close()] returns without doing anything:
    the members, and with them [bytes()], [size()] and [data()], stay as
    they are.  This holds for the read view and for the write view. *)
Theorem C10_closed_view_accessors :
  (∀ (v0 v : file_source.t) (w0 w w' : World) (fuel : nat),
     file_source.default_ctor (v0, w0) = (Ret (), (v, w))
     ∨ ((file_source.is_open v0 = true ∨ v0 = file_source.closed_state)
        ∧ file_source.close (v0, w0) = (Ret (), (v, w))) →
     file_source.is_open v = false ∧ file_source.bytes v = 0
     ∧ file_source.size (T:=T) v = 0 ∧ file_source.data v = nullptr
     ∧ file_source.begin_ (T:=T) v = file_source.end_ (T:=T) v
     ∧ file_source.iterator_eq (file_source.begin_ (T:=T) v)
         (file_source.end_ (T:=T) v) = true
     ∧ file_source.iterate (T:=T) fuel v w' = Done [])
  ∧ (∀ (v0 v : file_sink.t) (w0 w w' : World) (fuel : nat),
     file_sink.default_ctor (v0, w0) = (Ret (), (v, w))
     ∨ ((file_sink.is_open v0 = true ∨ v0 = file_sink.closed_state)
        ∧ file_sink.close (v0, w0) = (Ret (), (v, w))) →
     file_sink.is_open v = false ∧ file_sink.bytes v = 0
     ∧ file_sink.size (T:=T) v = 0 ∧ file_sink.data v = nullptr
     ∧ file_sink.begin_ (T:=T) v = file_sink.end_ (T:=T) v
     ∧ file_sink.iterator_eq (file_sink.begin_ (T:=T) v)
         (file_sink.end_ (T:=T) v) = true
     ∧ file_sink.iterate (T:=T) fuel v w' = Done [])
  ∧ (∀ (v0 : file_source.t) (w0 : World),
       file_source.is_open v0 = false →
       file_source.close (v0, w0) = (Ret (), (v0, w0)))
  ∧ (∀ (v0 : file_sink.t) (w0 : World),
       file_sink.is_open v0 = false →
       file_sink.close (v0, w0) = (Ret (), (v0, w0))).
Proof.
  split_and!.
  - intros v0 v w0 w w' fuel Hv.
    assert (v = file_source.closed_state) as ->.
    { destruct Hv as [Hd|[[Ho| ->] Hc]].
      - unfold file_source.default_ctor in Hd. rewrite source_init_run in Hd.
        by injection Hd as <- _.
      - apply (source_close_ret_open _ _ _ _ Hc Ho).
      - rewrite source_close_run in Hc. simpl in Hc. by injection Hc as <- _. }
    destruct (source_closed_accessors fuel w') as (? & ? & ? & ? & Hbe & ?).
    by split_and!.
  - intros v0 v w0 w w' fuel Hv.
    assert (v = file_sink.closed_state) as ->.
    { destruct Hv as [Hd|[[Ho| ->] Hc]].
      - unfold file_sink.default_ctor in Hd. rewrite sink_init_run in Hd.
        by injection Hd as <- _.
      - apply (sink_close_ret_open _ _ _ _ Hc Ho).
      - rewrite sink_close_run in Hc. simpl in Hc. by injection Hc as <- _. }
    destruct (sink_closed_accessors fuel w') as (? & ? & ? & ? & Hbe & ?).
    by split_and!.
  - intros v0 w0 Hclosed. by rewrite source_close_run, Hclosed.
  - intros v0 w0 Hclosed. by rewrite sink_close_run, Hclosed.
Qed.

End closed_views.

(** ** Failures of [open] and [close] *)

Section failures.
Context `{Platform} {T : Type} `{POD T}.

(** C1, as the code has it: [open] on a closed view that throws "cannot
    open file" leaves the view fully closed ([is_open()] false,
    [bytes()] 0, [size()] 0, [data()] null).  When [open] throws at a
    later step (stat, mmap, advise) nothing is undone: the view holds the
    descriptor it was given, [is_open()] is true, and the descriptor is
    still open.  This holds for the read view and for the write view. *)
Theorem C1_failed_open_state :
  (∀ (path : string) (adv : Z) (w0 w : World) (e : exn) (v : file_source.t),
     file_source.open (T:=T) path adv (file_source.closed_state, w0)
       = (Throw e, (v, w)) →
     (e = runtime_error "cannot open file"
      ∧ file_source.is_open v = false ∧ file_source.bytes v = 0
      ∧ file_source.size (T:=T) v = 0 ∧ file_source.data v = nullptr)
     ∨ (e ≠ runtime_error "cannot open file"
        ∧ file_source.is_open v = true
        ∧ is_Some (fds w !! file_source.m_fd v)))
  ∧ (∀ (path : string) (n : Z) (w0 w : World) (e : exn) (v : file_sink.t),
     file_sink.open (T:=T) path n (file_sink.closed_state, w0)
       = (Throw e, (v, w)) →
     (e = runtime_error "cannot open file"
      ∧ file_sink.is_open v = false ∧ file_sink.bytes v = 0
      ∧ file_sink.size (T:=T) v = 0 ∧ file_sink.data v = nullptr)
     ∨ (e ≠ runtime_error "cannot open file"
        ∧ file_sink.is_open v = true
        ∧ is_Some (fds w !! file_sink.m_fd v))).
Proof.
  split.
  - intros path adv w0 w e v Ho.
    apply source_open_throw in Ho as [[-> ->]|(He & Hfd & Hfds)]; [left|right].
    + split; [done|].
      destruct (source_closed_accessors 0 w0) as (? & ? & ? & ? & _).
      by split_and!.
    + split_and!; [done| |done]. unfold file_source.is_open.
      by destruct (Z.eqb_spec (file_source.m_fd v) (-1)).
  - intros path n w0 w e v Ho.
    apply sink_open_throw in Ho as [[-> ->]|(He & Hfd & Hfds)]; [left|right].
    + split; [done|].
      destruct (sink_closed_accessors 0 w0) as (? & ? & ? & ? & _).
      by split_and!.
    + split_and!; [done| |done]. unfold file_sink.is_open.
      by destruct (Z.eqb_spec (file_sink.m_fd v) (-1)).
Qed.

(** C2, as the code has it: when [close] fails ([munmap] returned -1) it
    throws before the descriptor is released and before [init] runs, so
    the view is exactly as it was: still open, with the same descriptor,
    base address and size, and the operating system still holds the
    descriptor and the mappings.  This holds for the read view and for
    the write view. *)
Theorem C2_failed_close_keeps_state :
  (∀ (v0 v : file_source.t) (w0 w : World) (e : exn),
     file_source.close (v0, w0) = (Throw e, (v, w)) →
     e = runtime_error "munmap failed when closing file_source"
     ∧ sys_munmap (file_source.m_data v0) (file_source.m_size v0) w0 = (-1, w)
     ∧ v = v0 ∧ file_source.is_open v = true
     ∧ fds w = fds w0 ∧ mappings w = mappings w0)
  ∧ (∀ (v0 v : file_sink.t) (w0 w : World) (e : exn),
     file_sink.close (v0, w0) = (Throw e, (v, w)) →
     e = runtime_error "munmap failed when closing file_sink"
     ∧ sys_munmap (file_sink.m_data v0) (file_sink.m_size v0) w0 = (-1, w)
     ∧ v = v0 ∧ file_sink.is_open v = true
     ∧ fds w = fds w0 ∧ mappings w = mappings w0).
Proof.
  split; intros v0 v w0 w e.
  - rewrite source_close_run.
    destruct (file_source.is_open v0) eqn:Hopen; [|done]. simpl.
    destruct (sys_munmap _ _ w0) as [r w1] eqn:Hm. simpl.
    destruct (Z.eqb_spec r (-1)) as [->|]; [|done].
    intros [= <- <- <-].
    apply sys_munmap_world in Hm as Hw. destruct Hw as (_ & ? & _ & Hmaps).
    split_and!; try done. by apply Hmaps.
  - rewrite sink_close_run.
    destruct (file_sink.is_open v0) eqn:Hopen; [|done]. simpl.
    destruct (sys_munmap _ _ w0) as [r w1] eqn:Hm. simpl.
    destruct (Z.eqb_spec r (-1)) as [->|]; [|done].
    intros [= <- <- <-].
    apply sys_munmap_world in Hm as Hw. destruct Hw as (_ & ? & _ & Hmaps).
    split_and!; try done. by apply Hmaps.
Qed.

(** C7, as the code has it: once a call of [close()] has returned
    without an error, [is_open()] is false, and a second [close()] is a
    no-op: it returns without an error, makes no system call, and leaves
    the view and the operating system as they are.  When the view was open
    at the first call all its members are reset (the fully closed state);
    when [is_open()] was already false the first call was a no-op too, so
    that members left stale by a failed re-open ([m_fd] -1, [m_size] and
    [m_data] of the former mapping) stay as they are.  This holds for the
    read view and for the write view. *)
Theorem C7_close_twice :
  (∀ (v0 v1 : file_source.t) (w0 w1 : World),
     file_source.close (v0, w0) = (Ret (), (v1, w1)) →
     file_source.is_open v1 = false
     ∧ (file_source.is_open v0 = true → v1 = file_source.closed_state)
     ∧ (file_source.is_open v0 = false → v1 = v0 ∧ w1 = w0)
     ∧ file_source.close (v1, w1) = (Ret (), (v1, w1)))
  ∧ (∀ (v0 v1 : file_sink.t) (w0 w1 : World),
     file_sink.close (v0, w0) = (Ret (), (v1, w1)) →
     file_sink.is_open v1 = false
     ∧ (file_sink.is_open v0 = true → v1 = file_sink.closed_state)
     ∧ (file_sink.is_open v0 = false → v1 = v0 ∧ w1 = w0)
     ∧ file_sink.close (v1, w1) = (Ret (), (v1, w1))).
Proof.
  split; intros v0 v1 w0 w1 Hc.
  - assert (file_source.is_open v0 = false → v1 = v0 ∧ w1 = w0) as Hnoop.
    { intros Hopen. rewrite source_close_run, Hopen in Hc. by simplify_eq. }
    assert (file_source.is_open v1 = false) as Hclosed.
    { destruct (file_source.is_open v0) eqn:Hopen.
      - by rewrite (source_close_ret_open _ _ _ _ Hc Hopen).
      - by destruct (Hnoop eq_refl) as [-> _]. }
    split_and!; [done|by apply (source_close_ret_open _ _ _ _ Hc)|done|].
    by rewrite source_close_run, Hclosed.
  - assert (file_sink.is_open v0 = false → v1 = v0 ∧ w1 = w0) as Hnoop.
    { intros Hopen. rewrite sink_close_run, Hopen in Hc. by simplify_eq. }
    assert (file_sink.is_open v1 = false) as Hclosed.
    { destruct (file_sink.is_open v0) eqn:Hopen.
      - by rewrite (sink_close_ret_open _ _ _ _ Hc Hopen).
      - by destruct (Hnoop eq_refl) as [-> _]. }
    split_and!; [done|by apply (sink_close_ret_open _ _ _ _ Hc)|done|].
    by rewrite sink_close_run, Hclosed.
Qed.

End failures.

(** ** Sizes *)

Section sizes.
Context `{Platform} {T : Type} `{POD T}.

Lemma quot_sizeof_bounds (b : Z) :
  0 ≤ b → (b ÷ sizeof T) * sizeof T ≤ b < (b ÷ sizeof T + 1) * sizeof T.
Proof.
  intros Hb. pose proof (sizeof_pos (T:=T)) as Hs.
  rewrite Z.quot_div_nonneg by lia.
  pose proof (Z.mul_div_le b (sizeof T) Hs).
  pose proof (Z.mul_succ_div_gt b (sizeof T) Hs). lia.
Qed.

(** What a successful [open] of the read view has established. *)
Lemma source_open_state path adv v0 w0 v w :
  file_source.open (T:=T) path adv (v0, w0) = (Ret (), (v, w)) →
  ∃ c, files w0 !! path = Some c ∧ files w = files w0
    ∧ file_source.m_size v = to_size_t (file_length c)
    ∧ 0 < file_source.m_size v
    ∧ 0 < file_source.m_data v
    ∧ file_source.m_data v + round_up (file_source.m_size v) < MAP_FAILED
    ∧ mappings w
      = {| map_base := file_source.m_data v; map_len := file_source.m_size v;
           map_path := path; map_write := false |} :: mappings w0
    ∧ advised w
      = {| adv_addr := file_source.m_data v;
           adv_len := file_source.m_size v ÷ sizeof T;
           adv_advice := adv |} :: advised w0.
Proof.
  intros Ho.
  apply source_open_ret in Ho
    as (fd & w1 & fs & w2 & w3 & Hopen & Hfd & Hstat & Hmap & Hp & Hadv & ->).
  simpl in *. set (p := file_source.m_data _) in *.
  apply sys_open_rdonly in Hopen as (Hf1 & Hm1 & Ha1 & _ & Hopen).
  destruct (Hopen Hfd) as (_ & _ & Hfds).
  apply sys_fstat_some in Hstat
    as (Hf2 & Hfd2 & Hm2 & Ha2 & _ & e & c & He & Hc & Hsz).
  rewrite Hfds in He. injection He as <-. simpl in Hc.
  apply sys_mmap_ok in Hmap
    as (Hf3 & _ & Ha3 & Hlen & Hpos & Hend & e & He & Hm3); [|done].
  rewrite Hfd2, Hfds in He. injection He as <-. simpl in Hm3.
  apply sys_posix_madvise_ok in Hadv as (Hf4 & _ & Hm4 & Ha4).
  exists c. rewrite Hf1 in Hc.
  split_and!; try done.
  - by rewrite Hf4, Hf3, Hf2.
  - by rewrite Hsz.
  - by rewrite Hm4, Hm3, Hm2, Hm1.
  - by rewrite Ha4, Ha3, Ha2, Ha1.
Qed.

(** C6: after a successful [open] of a read view, [bytes()] is the
    length the file at [path] had when [open] was called (a length that
    a [size_t] can hold); and for every view, read or write, in any
    state, [size()] is [bytes() / sizeof(T)] truncated toward zero, so
    that [size()] whole elements fit into [bytes()] bytes and a trailing
    partial element is not counted. *)
Theorem C6_bytes_and_size :
  (∀ (path : string) (adv : Z) (v0 v : file_source.t) (w0 w : World),
     file_source.open (T:=T) path adv (v0, w0) = (Ret (), (v, w)) →
     ∃ c, files w0 !! path = Some c
       ∧ (file_length c < 2 ^ size_bits → file_source.bytes v = file_length c))
  ∧ (∀ v : file_source.t,
       file_source.size (T:=T) v = file_source.bytes v ÷ sizeof T
       ∧ (0 ≤ file_source.bytes v →
          file_source.size (T:=T) v * sizeof T ≤ file_source.bytes v
            < (file_source.size (T:=T) v + 1) * sizeof T))
  ∧ (∀ v : file_sink.t,
       file_sink.size (T:=T) v = file_sink.bytes v ÷ sizeof T
       ∧ (0 ≤ file_sink.bytes v →
          file_sink.size (T:=T) v * sizeof T ≤ file_sink.bytes v
            < (file_sink.size (T:=T) v + 1) * sizeof T)).
Proof.
  split_and!.
  - intros path adv v0 v w0 w Ho.
    apply source_open_state in Ho as (c & Hc & _ & Hsz & _).
    exists c. split; [done|]. intros Hfit. unfold file_source.bytes.
    rewrite Hsz. apply to_size_t_small. unfold file_length in *. lia.
  - intros v. split; [done|]. apply quot_sizeof_bounds.
  - intros v. split; [done|]. apply quot_sizeof_bounds.
Qed.

(** C8: in a successful [open] of a read view the call of
    [posix_madvise] is made on the base address of the mapping with the
    length [bytes() / sizeof(T)] (that is, [size()]), not [bytes()]: when
    [sizeof(T) > 1] the advice covers a proper prefix of the [bytes()]
    mapped bytes. *)
Theorem C8_advise_length
    (path : string) (adv : Z) (v0 v : file_source.t) (w0 w : World) :
  file_source.open (T:=T) path adv (v0, w0) = (Ret (), (v, w)) →
  advised w
    = {| adv_addr := file_source.data v;
         adv_len := file_source.bytes v ÷ sizeof T;
         adv_advice := adv |} :: advised w0
  ∧ (∃ ms, mappings w
       = {| map_base := file_source.data v; map_len := file_source.bytes v;
            map_path := path; map_write := false |} :: ms)
  ∧ (1 < sizeof T → 0 ≤ file_source.bytes v ÷ sizeof T < file_source.bytes v).
Proof.
  intros Ho.
  apply source_open_state in Ho
    as (c & _ & _ & _ & Hpos & _ & _ & Hmaps & Hadv).
  unfold file_source.data, file_source.bytes.
  split_and!; [done|eauto|]. intros Hs.
  split; [apply Z.quot_pos; lia|apply Z.quot_lt; lia].
Qed.

(** What a successful [open] of the write view has established. *)
Lemma sink_open_state path n v0 w0 v w :
  file_sink.open (T:=T) path n (v0, w0) = (Ret (), (v, w)) →
  file_sink.m_size v = to_size_t (n * sizeof T)
  ∧ 0 < file_sink.m_size v
  ∧ 0 < file_sink.m_data v
  ∧ file_sink.m_data v + round_up (file_sink.m_size v) < MAP_FAILED
  ∧ mappings w
    = {| map_base := file_sink.m_data v; map_len := file_sink.m_size v;
         map_path := path; map_write := true |} :: mappings w0
  ∧ (files w = <[path := []]> (files w0)
     ∨ files w = <[path := replicate (Z.to_nat (file_sink.m_size v)) Byte.x00]>
                   (files w0)).
Proof.
  intros Ho.
  apply sink_open_ret in Ho
    as (fd & w1 & r & w2 & Hopen & Hfd & Htrunc & Hmap & Hp & ->).
  simpl in *. set (p := file_sink.m_data _) in *.
  apply sys_open_creat in Hopen as (Hm1 & _ & _ & Hopen).
  destruct (Hopen Hfd) as (_ & Hf1 & Hfds).
  apply sys_ftruncate_world in Htrunc as (Hfd2 & Hm2 & _ & _ & Hf2).
  apply sys_mmap_ok in Hmap
    as (Hf3 & _ & _ & Hlen & Hpos & Hend & e & He & Hm3); [|done].
  rewrite Hfd2, Hfds in He. injection He as <-. simpl in Hm3.
  split_and!; try done.
  - by rewrite Hm3, Hm2, Hm1.
  - rewrite Hf3. destruct Hf2 as [->|(e & c & He & Hc & ->)]; [by left|right].
    rewrite Hfds in He. injection He as <-. simpl in *.
    rewrite Hf1, lookup_insert_eq in Hc. injection Hc as <-.
    rewrite Hf1, insert_insert_eq. by rewrite resize_nil.
Qed.

(** After a successful [open] of the write view the file is empty (the
    resize failed) or consists of [bytes()] zero bytes. *)
Lemma sink_open_file path n v0 w0 v w :
  file_sink.open (T:=T) path n (v0, w0) = (Ret (), (v, w)) →
  files w !! path = Some []
  ∨ files w !! path = Some (replicate (Z.to_nat (file_sink.bytes v)) Byte.x00).
Proof.
  intros Ho. apply sink_open_state in Ho as (_ & _ & _ & _ & _ & [->| ->]);
    [left|right]; by rewrite lookup_insert_eq.
Qed.

(** C9: the write view computes its byte length as [n * sizeof(T)] in
    [size_t] arithmetic, that is modulo [2 ^ size_bits]; that is the
    length of the mapping and the value of [bytes()] after a successful
    [open(path, n)].  When [n * sizeof(T)] is [2 ^ size_bits] or more,
    [size()] differs from [n]. *)
Theorem C9_sink_size_wraps
    (path : string) (n : Z) (v0 v : file_sink.t) (w0 w : World) :
  file_sink.open (T:=T) path n (v0, w0) = (Ret (), (v, w)) →
  file_sink.bytes v = (n * sizeof T) mod 2 ^ size_bits
  ∧ (∃ ms, mappings w
       = {| map_base := file_sink.data v;
            map_len := (n * sizeof T) mod 2 ^ size_bits;
            map_path := path; map_write := true |} :: ms)
  ∧ (2 ^ size_bits ≤ n * sizeof T → file_sink.size (T:=T) v ≠ n).
Proof.
  intros Ho.
  apply sink_open_state in Ho as (Hsz & _ & _ & _ & Hmaps & _).
  unfold file_sink.bytes, file_sink.size, file_sink.data.
  rewrite Hsz in *. unfold to_size_t in *.
  split_and!; [done|eauto|]. intros Hbig.
  pose proof (sizeof_pos (T:=T)) as Hs.
  pose proof (to_size_t_range (n * sizeof T)) as Hr. unfold to_size_t in Hr.
  rewrite Z.quot_div_nonneg by lia.
  assert ((n * sizeof T) mod 2 ^ size_bits / sizeof T < n); [|lia].
  apply Z.div_lt_upper_bound; lia.
Qed.

End sizes.

(** ** Memory under a mapping *)

Section memory.
Context (w : World) (m : mapping) (ms : list mapping).
Hypothesis Hmaps : mappings w = m :: ms.

Lemma find_head (a : Z) :
  map_base m ≤ a < map_base m + map_len m →
  List.find (covers a) (mappings w) = Some m.
Proof.
  intros Ha. rewrite Hmaps. simpl.
  assert (covers a m = true) as ->; [|done].
  unfold covers. pose proof (round_up_ge (map_len m)).
  apply andb_true_intro. split; [apply Z.leb_le|apply Z.ltb_lt]; lia.
Qed.

(** Reading inside the file gives the file's byte. *)
Lemma peek_file (pre post : list byte) (b : byte) :
  files w !! map_path m = Some (pre ++ b :: post) →
  file_length pre < map_len m →
  peek w (map_base m + file_length pre) = Some b.
Proof.
  intros Hc Hlen. unfold peek, file_length in *.
  rewrite find_head by lia. simpl. rewrite Hc. simpl.
  replace (map_base m + Z.of_nat (length pre) - map_base m)
    with (Z.of_nat (length pre)) by lia.
  rewrite length_app. simpl.
  destruct (Z.ltb_spec (Z.of_nat (length pre))
              (Z.of_nat (length pre + S (length post)))); [|lia].
  rewrite Nat2Z.id. by apply list_lookup_middle.
Qed.

Lemma load_bytes_file (bs : list byte) : ∀ (pre post : list byte),
  files w !! map_path m = Some (pre ++ bs ++ post) →
  file_length pre + file_length bs ≤ map_len m →
  load_bytes w (map_base m + file_length pre) (length bs) = Some bs.
Proof.
  induction bs as [|b bs IH]; intros pre post Hc Hlen; [done|].
  simpl. rewrite (peek_file pre (bs ++ post) b); [|done|].
  2:{ unfold file_length in *. simpl in Hlen. lia. }
  simpl. specialize (IH (pre ++ [b]) post).
  replace (map_base m + file_length pre + 1)
    with (map_base m + file_length (pre ++ [b])).
  2:{ unfold file_length. rewrite length_app. simpl. lia. }
  rewrite IH; [done| |].
  - by rewrite <-app_assoc.
  - unfold file_length in *. rewrite length_app. simpl in *. lia.
Qed.

Lemma load_file {T} `{POD T} (x : T) (pre post : list byte) :
  files w !! map_path m = Some (pre ++ to_bytes x ++ post) →
  file_length pre + sizeof T ≤ map_len m →
  load w (map_base m + file_length pre) = Some x.
Proof.
  intros Hc Hlen. unfold load.
  pose proof (to_bytes_length x) as Hx.
  rewrite <-Hx, Nat2Z.id.
  rewrite (load_bytes_file _ pre post); [|done|unfold file_length in *; lia].
  simpl. by rewrite of_to_bytes.
Qed.

End memory.

(** Writing inside the file of a writable mapping replaces the file's
    bytes and nothing else. *)
Lemma poke_file (w : World) (m : mapping) (ms : list mapping)
    (pre post : list byte) (o b : byte) :
  mappings w = m :: ms → map_write m = true →
  files w !! map_path m = Some (pre ++ o :: post) →
  file_length pre < map_len m →
  ∃ w', poke w (map_base m + file_length pre) b = Some w'
    ∧ mappings w' = mappings w
    ∧ files w' = <[map_path m := pre ++ b :: post]> (files w).
Proof.
  intros Hmaps Hwr Hc Hlen. unfold poke, file_length in *.
  rewrite (find_head w m ms) by (done || lia). simpl. rewrite Hc. simpl.
  rewrite Hwr. simpl.
  replace (map_base m + Z.of_nat (length pre) - map_base m)
    with (Z.of_nat (length pre)) by lia.
  rewrite length_app. simpl.
  destruct (Z.ltb_spec (Z.of_nat (length pre))
              (Z.of_nat (length pre + S (length post)))); [|lia].
  eexists. split_and!; [done..|]. simpl. rewrite Nat2Z.id.
  replace (length pre) with (length pre + 0)%nat at 1 by lia.
  by rewrite insert_app_r.
Qed.

Lemma store_bytes_file (m : mapping) (ms : list mapping) (bs : list byte) :
  ∀ (w : World) (pre old post : list byte),
    mappings w = m :: ms → map_write m = true →
    files w !! map_path m = Some (pre ++ old ++ post) →
    length old = length bs →
    file_length pre + file_length bs ≤ map_len m →
    ∃ w', store_bytes w (map_base m + file_length pre) bs = Some w'
      ∧ mappings w' = mappings w
      ∧ files w' = <[map_path m := pre ++ bs ++ post]> (files w).
Proof.
  induction bs as [|b bs IH]; intros w pre old post Hmaps Hwr Hc Hold Hlen.
  - destruct old; [|done]. exists w. simpl. split_and!; [done..|].
    by rewrite insert_id.
  - destruct old as [|o old]; [done|]. simpl in *.
    destruct (poke_file w m ms pre (old ++ post) o b)
      as (w1 & -> & Hm1 & Hf1); [done..| |].
    { unfold file_length in *. simpl in Hlen. lia. }
    simpl.
    destruct (IH w1 (pre ++ [b]) old post) as (w2 & Hst & Hm2 & Hf2).
    + by rewrite Hm1.
    + done.
    + by rewrite Hf1, lookup_insert_eq, <-app_assoc.
    + lia.
    + unfold file_length in *. rewrite length_app. simpl in *. lia.
    + exists w2.
      replace (map_base m + file_length pre + 1)
        with (map_base m + file_length (pre ++ [b])).
      2:{ unfold file_length. rewrite length_app. simpl. lia. }
      split_and!; [done|by rewrite Hm2|].
      by rewrite Hf2, Hf1, insert_insert_eq, <-app_assoc.
Qed.

(** Behind the end of an empty file every page of a mapping faults. *)
Lemma poke_empty_file (w : World) (m : mapping) (ms : list mapping) (b : byte) :
  mappings w = m :: ms → files w !! map_path m = Some [] → 0 < map_len m →
  poke w (map_base m) b = None.
Proof.
  intros Hmaps Hc Hlen. unfold poke.
  rewrite (find_head w m ms) by (done || lia). simpl. rewrite Hc. simpl.
  rewrite Z.sub_diag. by destruct (map_write m).
Qed.

(** ** Elements in a mapped file *)

Section elements.
Context `{Platform} {T : Type} `{POD T}.

Lemma ptr_add_small (p k : Z) :
  0 ≤ p + k * sizeof T < MAP_FAILED → ptr_add (T:=T) p k = p + k * sizeof T.
Proof.
  intros Hr. unfold ptr_add. apply to_size_t_small.
  rewrite MAP_FAILED_eq in Hr. lia.
Qed.

Lemma to_bytes_file_length (x : T) : file_length (to_bytes x) = sizeof T.
Proof. apply to_bytes_length. Qed.

Lemma concat_to_bytes_length (xs : list T) :
  file_length (concat (map to_bytes xs)) = Z.of_nat (length xs) * sizeof T.
Proof.
  unfold file_length. induction xs as [|x xs IH]; [done|].
  simpl. rewrite length_app, Nat2Z.inj_add, IH, to_bytes_length. lia.
Qed.

(** [p[from] = x0; p[from + 1] = x1; ...] over the bytes [old] of the
    file replaces them by the elements' bytes. *)
Lemma fill_file (m : mapping) (ms : list mapping) (xs : list T) :
  ∀ (w : World) (pre old post : list byte) (k : Z),
    mappings w = m :: ms → map_write m = true →
    files w !! map_path m = Some (pre ++ old ++ post) →
    0 ≤ k → file_length pre = k * sizeof T →
    file_length old = Z.of_nat (length xs) * sizeof T →
    file_length pre + file_length old ≤ map_len m →
    0 < map_base m → map_base m + round_up (map_len m) < MAP_FAILED →
    ∃ w', file_sink.fill (map_base m) k xs w = Some w'
      ∧ mappings w' = mappings w
      ∧ files w' = <[map_path m := pre ++ concat (map to_bytes xs) ++ post]>
                     (files w).
Proof.
  pose proof (sizeof_pos (T:=T)) as Hs.
  induction xs as [|x xs IH];
    intros w pre old post k Hmaps Hwr Hc Hk Hpre Hold Hlen Hbase Hend.
  - exists w. destruct old; [|done]. simpl. split_and!; [done..|].
    by rewrite insert_id.
  - pose proof (round_up_ge (map_len m)) as Hru.
    pose proof (to_bytes_length x) as Hx.
    simpl in Hold. unfold file_length in Hold, Hlen, Hpre.
    assert (0 ≤ Z.of_nat (length xs) * sizeof T) by lia.
    simpl. unfold subscript, assign_to, store.
    rewrite ptr_add_small by lia. rewrite <-Hpre.
    destruct (store_bytes_file m ms (to_bytes x) w pre
                (take (length (to_bytes x)) old)
                (drop (length (to_bytes x)) old ++ post))
      as (w1 & Hst & Hm1 & Hf1); [done..| | | |].
    { by rewrite (app_assoc (take _ old)), take_drop. }
    { rewrite length_take. lia. }
    { unfold file_length. lia. }
    unfold file_length in Hst. rewrite Hst. simpl.
    destruct (IH w1 (pre ++ to_bytes x) (drop (length (to_bytes x)) old)
                post (k + 1)) as (w2 & Hfill & Hm2 & Hf2).
    + by rewrite Hm1.
    + done.
    + by rewrite Hf1, lookup_insert_eq, <-!app_assoc.
    + lia.
    + unfold file_length. rewrite length_app. lia.
    + unfold file_length. rewrite length_drop. lia.
    + unfold file_length. rewrite length_app, length_drop. lia.
    + done.
    + done.
    + exists w2. split_and!; [done|by rewrite Hm2|].
      by rewrite Hf2, Hf1, insert_insert_eq, <-!app_assoc.
Qed.

(** With nothing in the file (the resize did not happen) the first
    store already faults. *)
Lemma fill_empty_file (m : mapping) (ms : list mapping) (w : World)
    (x : T) (xs : list T) :
  mappings w = m :: ms → files w !! map_path m = Some [] →
  0 < map_len m →
  0 < map_base m → map_base m + round_up (map_len m) < MAP_FAILED →
  file_sink.fill (map_base m) 0 (x :: xs) w = None.
Proof.
  intros Hmaps Hc Hlen Hbase Hend.
  pose proof (round_up_ge (map_len m)) as Hru.
  simpl. unfold subscript, assign_to, store.
  rewrite ptr_add_small by lia. rewrite Z.add_0_r.
  pose proof (to_bytes_length x) as Hx. pose proof (sizeof_pos (T:=T)).
  destruct (to_bytes x) as [|b bs]; [simpl in Hx; lia|].
  simpl. by rewrite (poke_empty_file w m ms).
Qed.

(** The loop of the read view over a file that ends with the elements
    [xs] visits exactly [xs]. *)
Lemma traverse_file (w : World) (m : mapping) (ms : list mapping)
    (xs : list T) :
  ∀ (pre : list byte) (fuel : nat),
    mappings w = m :: ms →
    files w !! map_path m = Some (pre ++ concat (map to_bytes xs)) →
    file_length pre + Z.of_nat (length xs) * sizeof T = map_len m →
    0 < map_base m → map_base m + round_up (map_len m) < MAP_FAILED →
    (length xs ≤ fuel)%nat →
    file_source.traverse (T:=T) fuel w
      (file_source.mk_iterator (map_base m + file_length pre))
      (file_source.mk_iterator (map_base m + map_len m))
    = Done xs.
Proof.
  pose proof (sizeof_pos (T:=T)) as Hs.
  pose proof (round_up_ge (map_len m)) as Hru.
  induction xs as [|x xs IH]; intros pre fuel Hmaps Hc Hlen Hbase Hend Hfuel.
  - simpl in Hlen. rewrite <-Hlen, Z.add_0_r. apply source_traverse_empty.
  - destruct fuel as [|fuel]; [simpl in Hfuel; lia|].
    simpl in Hc, Hlen, Hfuel.
    assert (0 ≤ file_length pre) by (unfold file_length; lia).
    assert (0 ≤ Z.of_nat (length xs) * sizeof T) by lia.
    simpl.
    assert (file_source.iterator_ne
              (file_source.mk_iterator (map_base m + file_length pre))
              (file_source.mk_iterator (map_base m + map_len m)) = true) as ->.
    { unfold file_source.iterator_ne, file_source.iterator_eq. simpl.
      apply negb_true_iff, Z.eqb_neq. lia. }
    unfold file_source.deref. simpl.
    rewrite (load_file w m ms Hmaps x pre (concat (map to_bytes xs)));
      [|done|lia].
    simpl. unfold file_source.incr. simpl.
    rewrite ptr_add_small by lia.
    replace (map_base m + file_length pre + 1 * sizeof T)
      with (map_base m + file_length (pre ++ to_bytes x)).
    2:{ unfold file_length. rewrite length_app, Nat2Z.inj_add, to_bytes_length.
        lia. }
    rewrite IH; [done|done| | |done|done|lia].
    + by rewrite <-app_assoc.
    + unfold file_length in *.
      rewrite length_app, Nat2Z.inj_add, to_bytes_length. lia.
Qed.

End elements.

(** ** Writing through a write view and reading back *)

Section round_trip.
Context `{Platform} {T : Type} `{POD T}.

Lemma sink_close_files (v v' : file_sink.t) (w w' : World) (r : res unit) :
  file_sink.close (v, w) = (r, (v', w')) → files w' = files w.
Proof.
  rewrite sink_close_run. destruct (file_sink.is_open v); [|by intros [= _ _ <-]].
  simpl. destruct (sys_munmap _ _ w) as [u w1] eqn:Hm.
  apply sys_munmap_world in Hm as (Hf1 & _). simpl.
  destruct (u =? -1); [by intros [= _ _ <-]|].
  destruct (sys_close _ w1) as [u' w2] eqn:Hc.
  apply sys_close_world in Hc as (Hf2 & _). simpl.
  intros [= _ _ <-]. by rewrite Hf2.
Qed.

(** What the file holds once [n] elements were stored through [data()]
    of a freshly opened write view. *)
Lemma sink_fill_file (path : string) (xs : list T)
    (v0 v : file_sink.t) (w0 w1 w2 : World) :
  Z.of_nat (length xs) * sizeof T < 2 ^ size_bits →
  file_sink.open (T:=T) path (Z.of_nat (length xs)) (v0, w0) = (Ret (), (v, w1)) →
  file_sink.fill (file_sink.data v) 0 xs w1 = Some w2 →
  files w2 !! path = Some (concat (map to_bytes xs)).
Proof.
  intros Hfit Hopen Hfill. pose proof (sizeof_pos (T:=T)) as Hs.
  apply sink_open_state in Hopen as (Hsz & Hpos & Hbase & Hend & Hmaps & Hfiles).
  rewrite to_size_t_small in Hsz by lia.
  unfold file_sink.data in Hfill.
  set (m := {| map_base := file_sink.m_data v; map_len := file_sink.m_size v;
               map_path := path; map_write := true |}) in *.
  destruct Hfiles as [Hf|Hf].
  - destruct xs as [|x xs]; [simpl in *; lia|].
    rewrite (fill_empty_file m (mappings w0) w1) in Hfill; try done.
    by rewrite Hf, lookup_insert_eq.
  - destruct (fill_file m (mappings w0) xs w1 []
                (replicate (Z.to_nat (file_sink.m_size v)) Byte.x00) [] 0)
      as (w' & Hfill' & _ & Hf'); try done.
    + by rewrite Hf, lookup_insert_eq, app_nil_r.
    + unfold file_length. rewrite length_replicate. simpl in *. lia.
    + unfold file_length. rewrite length_replicate. simpl in *. lia.
    + simpl in Hfill'. rewrite Hfill in Hfill'. injection Hfill' as <-.
      by rewrite Hf', lookup_insert_eq, app_nil_r.
Qed.

(** What the loop over a freshly opened read view yields. *)
Lemma source_iterate_file (path : string) (adv : Z) (xs : list T)
    (v0 v : file_source.t) (w0 w : World) (fuel : nat) :
  Z.of_nat (length xs) * sizeof T < 2 ^ size_bits →
  files w0 !! path = Some (concat (map to_bytes xs)) →
  file_source.open (T:=T) path adv (v0, w0) = (Ret (), (v, w)) →
  (length xs ≤ fuel)%nat →
  file_source.size (T:=T) v = Z.of_nat (length xs)
  ∧ file_source.iterate fuel v w = Done xs.
Proof.
  intros Hfit Hc Hopen Hfuel. pose proof (sizeof_pos (T:=T)) as Hs.
  apply source_open_state in Hopen
    as (c & Hc' & Hfiles & Hsz & Hpos & Hbase & Hend & Hmaps & _).
  rewrite Hc in Hc'. injection Hc' as <-.
  rewrite concat_to_bytes_length in Hsz.
  rewrite to_size_t_small in Hsz by lia.
  assert (file_source.size (T:=T) v = Z.of_nat (length xs)) as Hsize.
  { unfold file_source.size. rewrite Hsz. apply Z.quot_mul. lia. }
  split; [done|].
  set (m := {| map_base := file_source.m_data v;
               map_len := file_source.m_size v;
               map_path := path; map_write := false |}) in *.
  pose proof (round_up_ge (file_source.m_size v)) as Hru.
  unfold file_source.iterate, file_source.begin_, file_source.end_,
    file_source.iterator_ctor.
  rewrite Hsize, !ptr_add_small by lia.
  rewrite <-Hsz, Z.mul_0_l.
  apply (traverse_file w m (mappings w0) xs []); try done.
  by rewrite Hfiles.
Qed.

(** The loop that assigns through the iterator stores nothing. *)
Lemma fill_through_unchanged (xs : list T) :
  ∀ (it : file_sink.iterator) (w w' : World),
    file_sink.fill_through it xs w = Some w' → w' = w.
Proof.
  induction xs as [|x xs IH]; intros it w w'; simpl; [congruence|].
  unfold file_sink.assign_through, file_sink.deref.
  destruct (load w (file_sink.m_ptr it)); simpl; [apply IH|done].
Qed.

(** C4, as the code has it: a write view is opened with element count
    [n] at [path], which succeeds for a non-empty sequence only; the [n]
    values of [xs] are stored in order through [data()] of the view
    ([data()[i] = xs[i]]), the write view is closed, and a read view is
    opened on the same path: the read view has [n] elements and its loop
    yields exactly [xs], in order.  ([n * sizeof(T)] is a length that a
    [size_t] can hold, and every step is one that succeeded.)  Assigning
    the values through the write view's iterator instead ([*it = x; ++it])
    stores nothing: memory and file stay as they were. *)
Theorem C4_round_trip
    (path : string) (xs : list T) (adv : Z)
    (sv0 sv1 sv2 : file_sink.t) (rv0 rv : file_source.t)
    (w0 w1 w2 w3 w4 : World) (fuel : nat) :
  Z.of_nat (length xs) * sizeof T < 2 ^ size_bits →
  file_sink.open (T:=T) path (Z.of_nat (length xs)) (sv0, w0)
    = (Ret (), (sv1, w1)) →
  file_sink.fill (file_sink.data sv1) 0 xs w1 = Some w2 →
  file_sink.close (sv1, w2) = (Ret (), (sv2, w3)) →
  file_source.open (T:=T) path adv (rv0, w3) = (Ret (), (rv, w4)) →
  (length xs ≤ fuel)%nat →
  xs ≠ []
  ∧ file_source.size (T:=T) rv = Z.of_nat (length xs)
  ∧ file_source.iterate fuel rv w4 = Done xs
  ∧ (∀ w2' : World,
       file_sink.fill_through (file_sink.begin_ (T:=T) sv1) xs w1 = Some w2' →
       w2' = w1).
Proof.
  intros Hfit Hopen Hfill Hclose Hread Hfuel.
  assert (xs ≠ []) as Hne.
  { intros ->. apply sink_open_state in Hopen as (Hsz & Hpos & _).
    simpl in Hsz. rewrite Z.mul_0_l in Hsz.
    rewrite to_size_t_small in Hsz; [lia|].
    pose proof (to_size_t_range 0). lia. }
  pose proof (sink_fill_file _ _ _ _ _ _ _ Hfit Hopen Hfill) as Hc.
  apply sink_close_files in Hclose. rewrite <-Hclose in Hc.
  destruct (source_iterate_file path adv xs rv0 rv w3 w4 fuel)
    as [Hsize Hiter]; try done.
  split_and!; [done..|]. intros w2'. apply fill_through_unchanged.
Qed.

(** C3, as the code has it: [operator*] of the write view's iterator
    returns a [T] by value, as the read view's does: dereferencing
    yields a copy of the element under the iterator, the same copy a
    read view's iterator at that address yields, and an assignment
    through the dereferenced iterator ([*it = x]) changes that copy
    only: memory and file are as before. *)
Theorem C3_sink_iterator_copies (p : Z) (x : T) (w : World) :
  file_sink.deref (file_sink.mk_iterator p) w
    = temporary <$> load w p
  ∧ file_sink.deref (T:=T) (file_sink.mk_iterator p) w
    = file_source.deref (file_source.mk_iterator p) w
  ∧ (∀ w', file_sink.assign_through (file_sink.mk_iterator p) x w = Some w' →
           w' = w).
Proof.
  split_and!; [done..|]. intros w'.
  unfold file_sink.assign_through, file_sink.deref. simpl.
  destruct (load w p); simpl; congruence.
Qed.

End round_trip.

(** ** The resize of the write view *)

(** C5 does not hold of the code: [open] does not look at what
    [ftruncate] returns.  Here [::open] succeeds, [ftruncate] fails and
    [mmap] succeeds: [open("f", 4)] on [uint32_t] returns normally with
    [bytes()] 16 and [size()] 4, the file on disk has length 0, not 16,
    and reading the elements faults instead of giving zeros. *)
Theorem C5_unchecked_ftruncate :
  let s := file_sink.open (T:=uint32) "f" 4
             (file_sink.closed_state, with_faults [false; true] boot) in
  s.1 = Ret ()
  ∧ file_sink.bytes s.2.1 = 16 ∧ file_sink.size (T:=uint32) s.2.1 = 4
  ∧ files s.2.2 !! "f" = Some []
  ∧ file_sink.iterate (T:=uint32) 4 s.2.1 s.2.2 = Fault.
Proof. vm_compute. done. Qed.

(** With the resize done, the file has the mapped length and reads as
    zeros. *)
Lemma sink_open_resized :
  let s := file_sink.open (T:=uint32) "f" 4 (file_sink.closed_state, boot) in
  s.1 = Ret ()
  ∧ files s.2.2 !! "f" = Some (replicate 16 Byte.x00)
  ∧ file_sink.iterate (T:=uint32) 4 s.2.1 s.2.2
    = Done (replicate 4 (uint32_of_Z 0)).
Proof. vm_compute. done. Qed.

(** ** Concrete runs *)

Lemma C1_failed_open_state_witness :
  file_source.is_open
    (file_source.open (T:=uint32) "f" advice.normal
       (file_source.closed_state, boot)).2.1 = false
  ∧ file_sink.is_open
      (file_sink.open (T:=uint32) "f" 0 (file_sink.closed_state, boot)).2.1
    = true.
Proof.
  split.
  - destruct (proj1 (C1_failed_open_state (T:=uint32)) "f" advice.normal boot
                (set_faults [] boot)
                (runtime_error "cannot open file")
                (file_source.closed_state)) as [(_ & Hc & _)|(Hne & _)].
    + vm_compute. reflexivity.
    + exact Hc.
    + destruct Hne. reflexivity.
  - destruct (proj2 (C1_failed_open_state (T:=uint32)) "f" 0 boot
                (file_sink.open (T:=uint32) "f" 0
                   (file_sink.closed_state, boot)).2.2
                (runtime_error "mmap failed")
                (file_sink.open (T:=uint32) "f" 0
                   (file_sink.closed_state, boot)).2.1)
      as [(He & _)|(_ & Ho & _)].
    + vm_compute. reflexivity.
    + discriminate He.
    + exact Ho.
Defined.

(** C1 as stated fails: on an existing empty file [::open] and [fstat]
    succeed and [mmap] refuses the zero length; [open] throws "mmap
    failed", and the view reports itself open, with [data()] equal to
    [MAP_FAILED]. *)
Lemma C1_counterexample :
  ∃ (e : exn) (v : file_source.t) (w : World),
    file_source.open (T:=uint32) "f" advice.normal
      (file_source.closed_state, with_file "f" [] boot)
      = (Throw e, (v, w))
    ∧ file_source.is_open v = true
    ∧ file_source.data v = MAP_FAILED
    ∧ ¬ (file_source.is_open v = false ∧ file_source.bytes v = 0
         ∧ file_source.size (T:=uint32) v = 0 ∧ file_source.data v = nullptr).
Proof.
  eexists _, _, _. split_and!; [vm_compute; reflexivity|done..|].
  intros (Ho & _). vm_compute in Ho. discriminate Ho.
Qed.

Lemma C2_failed_close_keeps_state_witness :
  file_source.is_open
    (file_source.close
       (reading.2.1, with_faults [true] reading.2.2)).2.1 = true.
Proof.
  destruct (proj1 C2_failed_close_keeps_state
              reading.2.1
              (file_source.close
                 (reading.2.1, with_faults [true] reading.2.2)).2.1
              (with_faults [true] reading.2.2)
              (file_source.close
                 (reading.2.1, with_faults [true] reading.2.2)).2.2
              (runtime_error "munmap failed when closing file_source"))
    as (_ & _ & _ & Ho & _).
  - vm_compute. reflexivity.
  - exact Ho.
Defined.

(** C2 as stated fails: [munmap] fails in [close] of an open read view;
    [close] throws and the members are not reset. *)
Lemma C2_counterexample :
  ∃ (e : exn) (v : file_source.t) (w : World),
    reading.1 = Ret ()
    ∧ file_source.close (reading.2.1, with_faults [true] reading.2.2)
      = (Throw e, (v, w))
    ∧ file_source.m_fd v ≠ -1 ∧ file_source.m_data v ≠ nullptr
    ∧ file_source.m_size v ≠ 0.
Proof.
  eexists _, _, _. split_and!; [done|vm_compute; reflexivity|done..].
Qed.

Lemma C7_close_twice_witness :
  file_sink.close
    (file_sink.close writing.2).2
  = (Ret (), (file_sink.closed_state,
              (file_sink.close writing.2).2.2)).
Proof.
  destruct (proj2 C7_close_twice
              writing.2.1 file_sink.closed_state writing.2.2
              (file_sink.close writing.2).2.2)
    as (_ & _ & _ & Hc).
  - vm_compute. reflexivity.
  - exact Hc.
Defined.

(** C7 as stated fails: when [munmap] fails, the first [close()] throws
    and leaves the view open, and the second [close()] runs [munmap]
    again and throws again. *)
Lemma C7_counterexample :
  ∃ (e1 e2 : exn) (v1 v2 : file_source.t) (w1 w2 : World),
    file_source.close
      (reading.2.1, with_faults [true; true] reading.2.2)
      = (Throw e1, (v1, w1))
    ∧ file_source.is_open v1 = true
    ∧ file_source.close (v1, w1) = (Throw e2, (v2, w2))
    ∧ file_source.is_open v2 = true.
Proof.
  eexists _, _, _, _, _, _.
  split_and!; [vm_compute; reflexivity|done|vm_compute; reflexivity|done].
Qed.

Lemma C3_sink_iterator_copies_witness :
  default boot
    (file_sink.assign_through (T:=uint32)
       (file_sink.begin_ (T:=uint32) writing.2.1) (uint32_of_Z 10) writing.2.2)
  = writing.2.2.
Proof.
  apply (proj2 (proj2 (C3_sink_iterator_copies (T:=uint32)
                         (file_sink.data writing.2.1) (uint32_of_Z 10)
                         writing.2.2))).
  vm_compute. reflexivity.
Defined.

(** C3 as stated fails: after [*it = 10] through the iterator of an open
    write view the element under the iterator is still 0, and so is the
    file. *)
Lemma C3_counterexample :
  ∃ w' : World,
    writing.1 = Ret ()
    ∧ file_sink.assign_through (T:=uint32)
        (file_sink.begin_ (T:=uint32) writing.2.1) (uint32_of_Z 10) writing.2.2
      = Some w'
    ∧ load (T:=uint32) w' (file_sink.data writing.2.1) ≠ Some (uint32_of_Z 10)
    ∧ files w' !! "f" = Some (replicate 8 Byte.x00).
Proof.
  eexists. split_and!; [done|vm_compute; reflexivity| |done].
  vm_compute. discriminate.
Qed.

Lemma C4_round_trip_witness :
  file_source.size (T:=uint32) scenario_reopened.2.1 = 4
  ∧ file_source.iterate (T:=uint32) 4 scenario_reopened.2.1 scenario_reopened.2.2
    = Done (map uint32_of_Z [10; 20; 30; 40]).
Proof.
  destruct (C4_round_trip (T:=uint32) "data.bin" scenario_values advice.normal
              file_sink.closed_state scenario_opened.2.1 scenario_closed.2.1
              file_source.closed_state scenario_reopened.2.1
              boot scenario_opened.2.2 scenario_filled scenario_closed.2.2
              scenario_reopened.2.2 4) as (_ & Hsize & Hiter & _).
  - vm_compute. reflexivity.
  - vm_compute. reflexivity.
  - vm_compute. reflexivity.
  - vm_compute. reflexivity.
  - vm_compute. reflexivity.
  - vm_compute. lia.
  - split; [exact Hsize|exact Hiter].
Defined.

(** C4 as stated fails: with the four values 10, 20, 30, 40 assigned in
    order through the write view's iterator, the write view closed and a
    read view opened on the same path, the loop yields four zeros; and
    for the empty sequence the write view cannot be opened at all ([open]
    with element count 0 throws). *)
Lemma C4_counterexample :
  scenario_opened.1 = Ret ()
  ∧ file_sink.fill_through (T:=uint32)
      (file_sink.begin_ (T:=uint32) scenario_opened.2.1) scenario_values
      scenario_opened.2.2 = Some scenario_assigned
  ∧ scenario_assigned_closed.1 = Ret ()
  ∧ scenario_assigned_reopened.1 = Ret ()
  ∧ file_source.iterate (T:=uint32) 4 scenario_assigned_reopened.2.1
      scenario_assigned_reopened.2.2
    = Done (map uint32_of_Z [0; 0; 0; 0])
  ∧ file_source.iterate (T:=uint32) 4 scenario_assigned_reopened.2.1
      scenario_assigned_reopened.2.2
    ≠ Done scenario_values
  ∧ (file_sink.open (T:=uint32) "data.bin" 0 (file_sink.closed_state, boot)).1
    = Throw (runtime_error "mmap failed").
Proof.
  split_and!; try (vm_compute; reflexivity). vm_compute. discriminate.
Qed.

Lemma C6_bytes_and_size_witness :
  file_source.bytes reading.2.1 = 8
  ∧ file_source.size (T:=uint32) reading.2.1 * sizeof uint32
      ≤ file_source.bytes reading.2.1
      < (file_source.size (T:=uint32) reading.2.1 + 1) * sizeof uint32.
Proof.
  split.
  - destruct (proj1 (C6_bytes_and_size (T:=uint32)) "f" advice.sequential
                file_source.closed_state reading.2.1 disk reading.2.2)
      as (c & Hc & Hb).
    + vm_compute. reflexivity.
    + vm_compute in Hc. injection Hc as <-. apply Hb. vm_compute. reflexivity.
  - apply (proj2 (proj1 (proj2 (C6_bytes_and_size (T:=uint32))) reading.2.1)).
    vm_compute. discriminate.
Defined.

Lemma C8_advise_length_witness :
  head (advised reading.2.2)
  = Some {| adv_addr := 65536; adv_len := 2; adv_advice := advice.sequential |}
  ∧ 0 ≤ file_source.bytes reading.2.1 ÷ sizeof uint32
      < file_source.bytes reading.2.1.
Proof.
  destruct (C8_advise_length (T:=uint32) "f" advice.sequential
              file_source.closed_state reading.2.1 disk reading.2.2)
    as (Hadv & _ & Hlt).
  - vm_compute. reflexivity.
  - split.
    + rewrite Hadv. vm_compute. reflexivity.
    + apply Hlt. vm_compute. reflexivity.
Defined.

Lemma C9_sink_size_wraps_witness :
  file_sink.bytes wrapping.2.1 = 4
  ∧ file_sink.size (T:=uint32) wrapping.2.1 ≠ 2 ^ 62 + 1.
Proof.
  destruct (C9_sink_size_wraps (T:=uint32) "f" (2 ^ 62 + 1)
              file_sink.closed_state wrapping.2.1 boot wrapping.2.2)
    as (Hb & _ & Hne).
  - vm_compute. reflexivity.
  - split.
    + rewrite Hb. vm_compute. reflexivity.
    + apply Hne. vm_compute. discriminate.
Defined.

Lemma C10_closed_view_accessors_witness :
  file_source.iterate (T:=uint32) 3 file_source.closed_state disk = Done []
  ∧ file_sink.bytes (file_sink.close writing.2).2.1 = 0
  ∧ file_source.close reopened.2 = (Ret (), reopened.2).
Proof.
  split_and!.
  - destruct (proj1 (C10_closed_view_accessors (T:=uint32))
                (file_source.mk 7 8 9) file_source.closed_state
                boot boot disk 3%nat) as (_ & _ & _ & _ & _ & _ & Hit).
    + left. vm_compute. reflexivity.
    + exact Hit.
  - destruct (proj1 (proj2 (C10_closed_view_accessors (T:=uint32)))
                writing.2.1 (file_sink.close writing.2).2.1
                writing.2.2 (file_sink.close writing.2).2.2 boot 0%nat)
      as (_ & Hb & _).
    + right. split; [left|]; vm_compute; reflexivity.
    + exact Hb.
  - apply (proj1 (proj2 (proj2 (C10_closed_view_accessors (T:=uint32))))
             reopened.2.1 reopened.2.2).
    vm_compute. reflexivity.
Defined.

(** C10 as stated fails: a read view is opened on an 8-byte file, a
    second [open] on it, for a path that names no file, throws with [m_fd]
    set to -1, and [close()] then returns without an error, having done
    nothing.  The view is closed with success and [is_open()] is false,
    but [bytes()] is 8, [size()] is 2, [data()] is not null, [begin()]
    differs from [end()], and the loop visits the two elements of the
    mapping that was never released. *)
Lemma C10_counterexample :
  ∃ (v : file_source.t) (w : World),
    reading.1 = Ret ()
    ∧ reopened.1 = Throw (runtime_error "cannot open file")
    ∧ file_source.close reopened.2 = (Ret (), (v, w))
    ∧ file_source.is_open v = false
    ∧ file_source.bytes v = 8
    ∧ file_source.size (T:=uint32) v = 2
    ∧ file_source.data v ≠ nullptr
    ∧ file_source.begin_ (T:=uint32) v ≠ file_source.end_ (T:=uint32) v
    ∧ file_source.iterate (T:=uint32) 2 v w = Done (map uint32_of_Z [10; 20]).
Proof.
  eexists _, _.
  split_and!; try (vm_compute; reflexivity); vm_compute; discriminate.
Qed.

(** * Further properties of the two views *)

(** ** What each system call leaves alone, whatever it returns *)

Lemma sys_fstat_frame (fd : Z) (w w' : World) (r : option stat) :
  sys_fstat fd w = (r, w') →
  files w' = files w ∧ mappings w' = mappings w.
Proof.
  unfold sys_fstat. step_fault w f w1. intros ?.
  repeat case_match; by simplify_eq/=.
Qed.

Lemma sys_mmap_frame `{Platform} (len : Z) (p : prot) (fd : Z)
    (w w' : World) (a : Z) :
  sys_mmap len p fd w = (a, w') →
  files w' = files w
  ∧ (mappings w' = mappings w ∨ ∃ m, mappings w' = m :: mappings w).
Proof.
  unfold sys_mmap. step_fault w f w1. intros ?.
  repeat case_match; simplify_eq/=; eauto.
Qed.

Lemma sys_posix_madvise_frame (addr len adv : Z) (w w' : World) (r : Z) :
  sys_posix_madvise addr len adv w = (r, w') →
  files w' = files w ∧ mappings w' = mappings w.
Proof.
  unfold sys_posix_madvise. step_fault w f w1. intros ?.
  repeat case_match; by simplify_eq/=.
Qed.

Lemma sys_open_fds (path : string) (fl : oflags) (w w' : World) (r : Z) :
  sys_open path fl w = (r, w') →
  mappings w' = mappings w
  ∧ ∀ fd, is_Some (fds w !! fd) → is_Some (fds w' !! fd).
Proof.
  unfold sys_open, alloc_fd. step_fault w f w1. intros ?.
  repeat case_match; simplify_eq/=; split; try done;
    intros fd Hfd;
    (destruct (decide (Z.max 0 (next_fd w) = fd)) as [<-|];
     [rewrite lookup_insert_eq; eauto|by rewrite lookup_insert_ne]).
Qed.

(** Without [O_CREAT] a path that names no file cannot be opened. *)
Lemma sys_open_missing (path : string) (w : World) :
  files w !! path = None →
  ∃ l, sys_open path O_RDONLY w = (-1, set_faults l w).
Proof.
  intros Hnone. unfold sys_open. step_fault w f w1.
  destruct f; [eauto|]. simpl. rewrite Hnone. simpl. eauto.
Qed.

(** A [munmap] that succeeds had a positive length and dropped every
    mapping that started at [addr]. *)
Lemma sys_munmap_ok (addr len : Z) (w w' : World) (r : Z) :
  sys_munmap addr len w = (r, w') → r ≠ -1 →
  0 < len ∧ addr mod page_size = 0
  ∧ fds w' = fds w
  ∧ ∀ m, m ∈ mappings w' → m ∈ mappings w ∧ map_base m ≠ addr.
Proof.
  unfold sys_munmap. step_fault w f w1.
  destruct f; [by intros [= <- <-]|]. simpl.
  destruct (Z.eqb_spec (addr mod page_size) 0) as [Hal|]; simpl;
    [|by intros [= <- <-]].
  destruct (Z.leb_spec len 0); [by intros [= <- <-]|].
  intros [= <- <-] _. simpl. split_and!; [lia|done|done|].
  intros m [Hkeep Hin]%list_elem_of_filter. split; [done|].
  intros Hbase. rewrite Hbase in Hkeep.
  destruct (Z.leb_spec addr addr); [|lia].
  destruct (Z.ltb_spec addr (addr + len)); [|lia]. done.
Qed.

Lemma sys_close_fds (fd : Z) (w w' : World) (r : Z) :
  sys_close fd w = (r, w') →
  fds w' = delete fd (fds w) ∧ mappings w' = mappings w ∧ files w' = files w.
Proof. unfold sys_close. step_fault w f w1. by intros [= <- <-]. Qed.

Lemma MAP_FAILED_unaligned `{Platform} : MAP_FAILED mod page_size ≠ 0.
Proof.
  rewrite MAP_FAILED_eq. pose proof size_bits_pos as Hpos.
  intros Hmod. apply Z.mod_divide in Hmod; [|done].
  destruct Hmod as [q Hq]. unfold page_size in Hq.
  replace size_bits with (Z.succ (size_bits - 1)) in Hq by lia.
  rewrite Z.pow_succ_r in Hq by lia. lia.
Qed.

(** [munmap] of the address [MAP_FAILED] fails. *)
Lemma sys_munmap_MAP_FAILED `{Platform} (len : Z) (w : World) :
  (sys_munmap MAP_FAILED len w).1 = -1.
Proof.
  unfold sys_munmap. step_fault w f w1. destruct f; [done|]. simpl.
  destruct (Z.eqb_spec (MAP_FAILED mod page_size) 0) as [Hal|]; [|done].
  by apply MAP_FAILED_unaligned in Hal.
Qed.

(** ** The read view and the file system *)

Section source_extras.
Context `{Platform} {T : Type} `{POD T}.

(** Whatever [open] of the read view does, it leaves the files as they
    are, closes no descriptor and removes no mapping. *)
Lemma source_open_frame path adv v0 w0 r v w :
  file_source.open (T:=T) path adv (v0, w0) = (r, (v, w)) →
  files w = files w0
  ∧ (∀ fd, is_Some (fds w0 !! fd) → is_Some (fds w !! fd))
  ∧ ∃ new, mappings w = new ++ mappings w0.
Proof.
  unfold file_source.open. run_monad.
  destruct (sys_open path O_RDONLY w0) as [fd w1] eqn:Ho. run_monad.
  apply sys_open_rdonly in Ho as Hf1. destruct Hf1 as (Hf1 & _).
  apply sys_open_fds in Ho as (Hm1 & Hd1).
  destruct (fd =? -1); run_monad.
  { intros [= <- <- <-]. split_and!; [done..|]. exists []. by rewrite Hm1. }
  destruct (sys_fstat fd w1) as [fs w2] eqn:Hs. run_monad.
  apply sys_fstat_fds in Hs as Hd2. apply sys_fstat_frame in Hs as (Hf2 & Hm2).
  destruct fs as [fs|]; run_monad.
  2:{ intros [= <- <- <-]. split_and!.
      - by rewrite Hf2.
      - intros ??. rewrite Hd2. eauto.
      - exists []. by rewrite Hm2, Hm1. }
  destruct (sys_mmap _ _ _ w2) as [p w3] eqn:Hm. run_monad.
  apply sys_mmap_fds in Hm as Hd3. apply sys_mmap_frame in Hm as (Hf3 & Hm3).
  assert (∃ new, mappings w3 = new ++ mappings w0) as Hmaps.
  { destruct Hm3 as [->|[m ->]]; [exists []|exists [m]]; by rewrite Hm2, Hm1. }
  destruct (p =? MAP_FAILED); run_monad.
  { intros [= <- <- <-]. split_and!; [by rewrite Hf3, Hf2| |done].
    intros ??. rewrite Hd3, Hd2. eauto. }
  destruct (sys_posix_madvise _ _ _ w3) as [u w4] eqn:Ha. run_monad.
  apply sys_posix_madvise_fds in Ha as Hd4.
  apply sys_posix_madvise_frame in Ha as (Hf4 & Hm4).
  assert (files w4 = files w0) by (by rewrite Hf4, Hf3, Hf2).
  assert (∀ fd, is_Some (fds w0 !! fd) → is_Some (fds w4 !! fd)).
  { intros ??. rewrite Hd4, Hd3, Hd2. eauto. }
  rewrite <-Hm4 in Hmaps.
  destruct (u =? 0); simpl; by intros [= <- <- <-].
Qed.

Lemma source_close_files (v v' : file_source.t) (w w' : World) (r : res unit) :
  file_source.close (v, w) = (r, (v', w')) → files w' = files w.
Proof.
  rewrite source_close_run.
  destruct (file_source.is_open v); [|by intros [= _ _ <-]].
  simpl. destruct (sys_munmap _ _ w) as [u w1] eqn:Hm.
  apply sys_munmap_world in Hm as (Hf1 & _). simpl.
  destruct (u =? -1); [by intros [= _ _ <-]|].
  destruct (sys_close _ w1) as [u' w2] eqn:Hc.
  apply sys_close_world in Hc as (Hf2 & _). simpl.
  intros [= _ _ <-]. by rewrite Hf2.
Qed.

(** X1: [open] of a read view on a path that names no file throws "cannot
    open file"; only [m_fd] is assigned (to -1, so [is_open()] is false),
    and no file, descriptor, mapping or advice is created. *)
Theorem source_open_missing (path : string) (adv : Z)
    (v0 : file_source.t) (w0 : World) :
  files w0 !! path = None →
  ∃ w, file_source.open (T:=T) path adv (v0, w0)
       = (Throw (runtime_error "cannot open file"),
          (file_source.set_fd (-1) v0, w))
    ∧ file_source.is_open (file_source.set_fd (-1) v0) = false
    ∧ files w = files w0 ∧ fds w = fds w0
    ∧ mappings w = mappings w0 ∧ advised w = advised w0.
Proof.
  intros Hnone. destruct (sys_open_missing path w0 Hnone) as [l Ho].
  exists (set_faults l w0). unfold file_source.open. run_monad.
  rewrite Ho. run_monad. done.
Qed.

(** X2: the read view never writes: after [open], whether it returned or
    threw, and after [close], every file is as it was. *)
Theorem source_never_writes (path : string) (adv : Z)
    (v0 : file_source.t) (w0 : World) :
  files (file_source.open (T:=T) path adv (v0, w0)).2.2 = files w0
  ∧ files (file_source.close (v0, w0)).2.2 = files w0.
Proof.
  split.
  - destruct (file_source.open path adv (v0, w0)) as [r [v w]] eqn:Ho.
    by apply source_open_frame in Ho as (? & _).
  - destruct (file_source.close (v0, w0)) as [r [v w]] eqn:Hc.
    by apply source_close_files in Hc.
Qed.

(** X7: [open] of the read view releases nothing.  Called on a view that is
    already open it overwrites the members, while every descriptor that
    was open stays open and every mapping stays mapped: the view's former
    descriptor and mapping are leaked. *)
Theorem source_open_releases_nothing (path : string) (adv : Z)
    (v0 : file_source.t) (w0 : World) :
  let w := (file_source.open (T:=T) path adv (v0, w0)).2.2 in
  (∀ fd, is_Some (fds w0 !! fd) → is_Some (fds w !! fd))
  ∧ (∀ m, m ∈ mappings w0 → m ∈ mappings w).
Proof.
  simpl. destruct (file_source.open path adv (v0, w0)) as [r [v w]] eqn:Ho.
  apply source_open_frame in Ho as (_ & Hfds & new & Hmaps). simpl.
  split; [done|]. intros m Hm. rewrite Hmaps. apply elem_of_app. by right.
Qed.

End source_extras.

(** ** The write view and the file system *)

Section sink_extras.
Context `{Platform} {T : Type} `{POD T}.

(** Whatever [open] of the write view does, it closes no descriptor,
    removes no mapping and touches no file but the one at [path]; and once
    [::open] has succeeded that file is empty or zero-filled. *)
Lemma sink_open_frame path n v0 w0 r v w :
  file_sink.open (T:=T) path n (v0, w0) = (r, (v, w)) →
  (∀ fd, is_Some (fds w0 !! fd) → is_Some (fds w !! fd))
  ∧ (∃ new, mappings w = new ++ mappings w0)
  ∧ (∀ other, other ≠ path → files w !! other = files w0 !! other)
  ∧ (file_sink.m_fd v ≠ -1 →
     files w !! path = Some []
     ∨ files w !! path
       = Some (replicate (Z.to_nat (file_sink.m_size v)) Byte.x00)).
Proof.
  unfold file_sink.open. run_monad.
  destruct (sys_open path O_RDWR_CREAT_TRUNC w0) as [fd w1] eqn:Ho. run_monad.
  apply sys_open_fds in Ho as Hd. destruct Hd as (Hm1 & Hd1).
  destruct (Z.eqb_spec fd (-1)) as [->|Hfd]; run_monad.
  { intros [= <- <- <-]. simpl. split_and!; [done|by exists []| |done].
    intros other _. unfold sys_open in Ho. step_fault w0 f w0'.
    destruct f; [by injection Ho as <-|]. simpl in Ho.
    unfold alloc_fd in Ho. repeat case_match; simplify_eq/=; lia. }
  apply sys_open_creat in Ho as (_ & _ & _ & Ho).
  destruct (Ho Hfd) as (_ & Hf1 & Hfds).
  destruct (sys_ftruncate _ _ w1) as [u w2] eqn:Ht. run_monad.
  apply sys_ftruncate_world in Ht as (Hd2 & Hm2 & _ & _ & Hf2).
  destruct (sys_mmap _ _ _ w2) as [p w3] eqn:Hm. run_monad.
  apply sys_mmap_fds in Hm as Hd3. apply sys_mmap_frame in Hm as (Hf3 & Hm3).
  assert (∀ fd', is_Some (fds w0 !! fd') → is_Some (fds w3 !! fd')) as Hfd3.
  { intros ??. rewrite Hd3, Hd2. eauto. }
  assert (∃ new, mappings w3 = new ++ mappings w0) as Hmaps.
  { destruct Hm3 as [->|[m ->]]; [exists []|exists [m]]; by rewrite Hm2, Hm1. }
  assert (∀ other, other ≠ path → files w3 !! other = files w0 !! other)
    as Hothers.
  { intros other Hne. rewrite Hf3.
    destruct Hf2 as [->|(e & c & He & Hc & ->)].
    - by rewrite Hf1, lookup_insert_ne.
    - rewrite Hfds in He. injection He as <-. simpl.
      by rewrite lookup_insert_ne, Hf1, lookup_insert_ne. }
  assert (files w3 !! path = Some []
          ∨ files w3 !! path
            = Some (replicate (Z.to_nat (to_size_t (n * sizeof T))) Byte.x00))
    as Hpath.
  { rewrite Hf3. destruct Hf2 as [->|(e & c & He & Hc & ->)].
    - left. by rewrite Hf1, lookup_insert_eq.
    - right. rewrite Hfds in He. injection He as <-. simpl in *.
      rewrite Hf1, lookup_insert_eq in Hc. injection Hc as <-.
      by rewrite lookup_insert_eq, resize_nil. }
  destruct (p =? MAP_FAILED); run_monad; by intros [= <- <- <-].
Qed.

(** X5: [open] of the write view always recreates the file.  Once
    [::open] has succeeded ([m_fd] is not -1), and even if [open] then
    throws "mmap failed", whatever the file at [path] held is gone: it is
    empty or consists of [bytes()] zero bytes.  No other file is touched,
    whatever the outcome. *)
Theorem sink_open_discards (path : string) (n : Z)
    (v0 : file_sink.t) (w0 : World) :
  let s := file_sink.open (T:=T) path n (v0, w0) in
  (file_sink.m_fd s.2.1 ≠ -1 →
   files s.2.2 !! path = Some []
   ∨ files s.2.2 !! path
     = Some (replicate (Z.to_nat (file_sink.bytes s.2.1)) Byte.x00))
  ∧ (∀ other, other ≠ path → files s.2.2 !! other = files w0 !! other).
Proof.
  simpl. destruct (file_sink.open path n (v0, w0)) as [r [v w]] eqn:Ho.
  apply sink_open_frame in Ho as (_ & _ & Hothers & Hpath). by split.
Qed.

(** X16: [open] of the write view releases nothing: every descriptor that
    was open stays open and every mapping stays mapped; on a view that is
    already open the former descriptor and mapping are leaked. *)
Theorem sink_open_releases_nothing (path : string) (n : Z)
    (v0 : file_sink.t) (w0 : World) :
  let w := (file_sink.open (T:=T) path n (v0, w0)).2.2 in
  (∀ fd, is_Some (fds w0 !! fd) → is_Some (fds w !! fd))
  ∧ (∀ m, m ∈ mappings w0 → m ∈ mappings w).
Proof.
  simpl. destruct (file_sink.open path n (v0, w0)) as [r [v w]] eqn:Ho.
  apply sink_open_frame in Ho as (Hfds & (new & Hmaps) & _). simpl.
  split; [done|]. intros m Hm. rewrite Hmaps. apply elem_of_app. by right.
Qed.

(** X6: nothing of length zero can be opened.  [open(path, n)] of the
    write view never returns when [n * sizeof(T)] is 0 as a [size_t]
    ([n = 0], or a product that wraps to 0), and [open] of the read view
    never returns on an empty file: [mmap] refuses the zero length and
    [open] throws. *)
Theorem zero_length_never_opens :
  (∀ (path : string) (n : Z) (v0 : file_sink.t) (w0 : World),
     to_size_t (n * sizeof T) = 0 →
     (file_sink.open (T:=T) path n (v0, w0)).1 ≠ Ret ())
  ∧ (∀ (path : string) (adv : Z) (v0 : file_source.t) (w0 : World),
     files w0 !! path = Some [] →
     (file_source.open (T:=T) path adv (v0, w0)).1 ≠ Ret ()).
Proof.
  split.
  - intros path n v0 w0 Hzero.
    destruct (file_sink.open path n (v0, w0)) as [r [v w]] eqn:Ho.
    simpl. intros ->.
    apply sink_open_state in Ho as (Hsz & Hpos & _). lia.
  - intros path adv v0 w0 Hempty.
    destruct (file_source.open path adv (v0, w0)) as [r [v w]] eqn:Ho.
    simpl. intros ->.
    apply source_open_state in Ho as (c & Hc & _ & Hsz & Hpos & _).
    rewrite Hempty in Hc. injection Hc as <-.
    unfold file_length in Hsz. simpl in Hsz.
    unfold to_size_t in Hsz. rewrite Z.mod_0_l in Hsz; [lia|].
    pose proof (to_size_t_range 0). lia.
Qed.

(** X13: when [n * sizeof(T)] fits a [size_t], a write view that [open]
    has returned has exactly [n] elements: [bytes()] is [n * sizeof(T)],
    [size()] is [n], and [n] is positive. *)
Theorem sink_size_exact (path : string) (n : Z)
    (v0 v : file_sink.t) (w0 w : World) :
  0 ≤ n → n * sizeof T < 2 ^ size_bits →
  file_sink.open (T:=T) path n (v0, w0) = (Ret (), (v, w)) →
  file_sink.bytes v = n * sizeof T ∧ file_sink.size (T:=T) v = n ∧ 0 < n.
Proof.
  intros Hn Hfit Ho. pose proof (sizeof_pos (T:=T)) as Hs.
  apply sink_open_state in Ho as (Hsz & Hpos & _).
  rewrite to_size_t_small in Hsz by lia.
  unfold file_sink.bytes, file_sink.size. rewrite Hsz in *.
  split_and!; [done|apply Z.quot_mul; lia|nia].
Qed.

End sink_extras.

(** ** Closing *)

Lemma round_up_aligned (n : Z) : round_up n mod page_size = 0.
Proof. unfold round_up. by apply Z.mod_mul. Qed.

Lemma sys_mmap_aligned `{Platform} (len : Z) (p : prot) (fd : Z)
    (w w' : World) (a : Z) :
  sys_mmap len p fd w = (a, w') → a ≠ MAP_FAILED → a mod page_size = 0.
Proof.
  unfold sys_mmap. step_fault w f w1. intros Hm Ha.
  repeat case_match; simplify_eq/=; try done. apply round_up_aligned.
Qed.

(** Without a fault scheduled, [munmap] of an aligned address and a
    positive length succeeds. *)
Lemma sys_munmap_succeeds (addr len : Z) (w : World) :
  head (faults w) ≠ Some true → addr mod page_size = 0 → 0 < len →
  (sys_munmap addr len w).1 = 0.
Proof.
  intros Hfault Hal Hlen. unfold sys_munmap, pop_fault.
  destruct (faults w) as [|[|] l]; simpl in *; try done;
    rewrite Hal; simpl; by destruct (Z.leb_spec len 0); [lia|].
Qed.

Section closing.
Context `{Platform} {T : Type} `{POD T}.

(** X4: a [close()] that returns on an open view has released both
    resources, the mapping first: the descriptor [m_fd] is no longer open,
    no mapping starts at [m_data] any more, no other mapping was added,
    and the files are untouched.  This holds for the read view and for the
    write view. *)
Theorem close_releases :
  (∀ (v0 v : file_source.t) (w0 w : World),
     file_source.is_open v0 = true →
     file_source.close (v0, w0) = (Ret (), (v, w)) →
     fds w !! file_source.m_fd v0 = None
     ∧ (∀ m, m ∈ mappings w →
             m ∈ mappings w0 ∧ map_base m ≠ file_source.m_data v0)
     ∧ files w = files w0)
  ∧ (∀ (v0 v : file_sink.t) (w0 w : World),
     file_sink.is_open v0 = true →
     file_sink.close (v0, w0) = (Ret (), (v, w)) →
     fds w !! file_sink.m_fd v0 = None
     ∧ (∀ m, m ∈ mappings w →
             m ∈ mappings w0 ∧ map_base m ≠ file_sink.m_data v0)
     ∧ files w = files w0).
Proof.
  split; intros v0 v w0 w Hopen Hc.
  - apply source_close_files in Hc as Hf.
    rewrite source_close_run, Hopen in Hc. simpl in Hc.
    destruct (sys_munmap _ _ w0) as [u w1] eqn:Hm. simpl in Hc.
    destruct (Z.eqb_spec u (-1)); [done|].
    apply sys_munmap_ok in Hm as (_ & _ & Hd1 & Hm1); [|done].
    destruct (sys_close _ w1) as [u' w2] eqn:Hcl. simpl in Hc.
    apply sys_close_fds in Hcl as (Hd2 & Hm2 & _).
    injection Hc as <- <-. split_and!; [|by rewrite Hm2|done].
    by rewrite Hd2, lookup_delete_eq.
  - apply sink_close_files in Hc as Hf.
    rewrite sink_close_run, Hopen in Hc. simpl in Hc.
    destruct (sys_munmap _ _ w0) as [u w1] eqn:Hm. simpl in Hc.
    destruct (Z.eqb_spec u (-1)); [done|].
    apply sys_munmap_ok in Hm as (_ & _ & Hd1 & Hm1); [|done].
    destruct (sys_close _ w1) as [u' w2] eqn:Hcl. simpl in Hc.
    apply sys_close_fds in Hcl as (Hd2 & Hm2 & _).
    injection Hc as <- <-. split_and!; [|by rewrite Hm2|done].
    by rewrite Hd2, lookup_delete_eq.
Qed.

Lemma source_open_mmap_failed path adv v0 w0 v w :
  file_source.open (T:=T) path adv (v0, w0)
    = (Throw (runtime_error "mmap failed"), (v, w)) →
  file_source.m_fd v ≠ -1 ∧ file_source.m_data v = MAP_FAILED.
Proof.
  unfold file_source.open. run_monad.
  destruct (sys_open path O_RDONLY w0) as [fd w1]. run_monad.
  destruct (Z.eqb_spec fd (-1)) as [->|Hfd]; run_monad; [done|].
  destruct (sys_fstat fd w1) as [[fs|] w2]; run_monad; [|done].
  destruct (sys_mmap _ _ _ w2) as [p w3]. run_monad.
  destruct (Z.eqb_spec p MAP_FAILED) as [->|Hp]; run_monad.
  { by intros [= <- <-]. }
  destruct (sys_posix_madvise _ _ _ w3) as [u w4]. run_monad.
  by destruct (u =? 0).
Qed.

Lemma sink_open_mmap_failed path n v0 w0 v w :
  file_sink.open (T:=T) path n (v0, w0)
    = (Throw (runtime_error "mmap failed"), (v, w)) →
  file_sink.m_fd v ≠ -1 ∧ file_sink.m_data v = MAP_FAILED.
Proof.
  unfold file_sink.open. run_monad.
  destruct (sys_open path O_RDWR_CREAT_TRUNC w0) as [fd w1]. run_monad.
  destruct (Z.eqb_spec fd (-1)) as [->|Hfd]; run_monad; [done|].
  destruct (sys_ftruncate _ _ w1) as [u w2]. run_monad.
  destruct (sys_mmap _ _ _ w2) as [p w3]. run_monad.
  destruct (Z.eqb_spec p MAP_FAILED) as [->|Hp]; run_monad; [|done].
  by intros [= <- <-].
Qed.

(** X8: a view on which [open] threw "mmap failed" cannot be closed any
    more.  It reports itself open with [data()] equal to [MAP_FAILED];
    every later [close()] calls [munmap] on that address, throws "munmap
    failed" and leaves the view as it is; and its destructor, which runs
    [close()], ends in [std::terminate].  This holds for the read view
    and for the write view. *)
Theorem mmap_failed_is_stuck :
  (∀ (path : string) (adv : Z) (v0 v : file_source.t) (w0 w w' : World),
     file_source.open (T:=T) path adv (v0, w0)
       = (Throw (runtime_error "mmap failed"), (v, w)) →
     file_source.is_open v = true ∧ file_source.data v = MAP_FAILED
     ∧ (file_source.close (v, w')).1
       = Throw (runtime_error "munmap failed when closing file_source")
     ∧ (file_source.close (v, w')).2.1 = v
     ∧ file_source.dtor (v, w') = terminated)
  ∧ (∀ (path : string) (n : Z) (v0 v : file_sink.t) (w0 w w' : World),
     file_sink.open (T:=T) path n (v0, w0)
       = (Throw (runtime_error "mmap failed"), (v, w)) →
     file_sink.is_open v = true ∧ file_sink.data v = MAP_FAILED
     ∧ (file_sink.close (v, w')).1
       = Throw (runtime_error "munmap failed when closing file_sink")
     ∧ (file_sink.close (v, w')).2.1 = v
     ∧ file_sink.dtor (v, w') = terminated).
Proof.
  split.
  - intros path adv v0 v w0 w w' Ho.
    apply source_open_mmap_failed in Ho as (Hfd & Hp).
    assert (file_source.is_open v = true) as Hopen.
    { unfold file_source.is_open.
      by destruct (Z.eqb_spec (file_source.m_fd v) (-1)). }
    unfold file_source.dtor. rewrite source_close_run, Hopen, Hp. simpl.
    by rewrite sys_munmap_MAP_FAILED.
  - intros path n v0 v w0 w w' Ho.
    apply sink_open_mmap_failed in Ho as (Hfd & Hp).
    assert (file_sink.is_open v = true) as Hopen.
    { unfold file_sink.is_open.
      by destruct (Z.eqb_spec (file_sink.m_fd v) (-1)). }
    unfold file_sink.dtor. rewrite sink_close_run, Hopen, Hp. simpl.
    by rewrite sys_munmap_MAP_FAILED.
Qed.

(** X12: a view that [open] has returned can be closed.  It is open
    ([is_open()] true, [data()] neither null nor [MAP_FAILED]), and in any
    later state of the system in which [munmap] is not made to fail,
    [close()] returns and leaves the view in the closed state.  This holds
    for the read view and for the write view. *)
Theorem opened_view_closes :
  (∀ (path : string) (adv : Z) (v0 v : file_source.t) (w0 w w' : World),
     file_source.open (T:=T) path adv (v0, w0) = (Ret (), (v, w)) →
     head (faults w') ≠ Some true →
     file_source.is_open v = true
     ∧ file_source.data v ≠ nullptr ∧ file_source.data v ≠ MAP_FAILED
     ∧ (file_source.close (v, w')).1 = Ret ()
     ∧ (file_source.close (v, w')).2.1 = file_source.closed_state)
  ∧ (∀ (path : string) (n : Z) (v0 v : file_sink.t) (w0 w w' : World),
     file_sink.open (T:=T) path n (v0, w0) = (Ret (), (v, w)) →
     head (faults w') ≠ Some true →
     file_sink.is_open v = true
     ∧ file_sink.data v ≠ nullptr ∧ file_sink.data v ≠ MAP_FAILED
     ∧ (file_sink.close (v, w')).1 = Ret ()
     ∧ (file_sink.close (v, w')).2.1 = file_sink.closed_state).
Proof.
  split.
  - intros path adv v0 v w0 w w' Ho Hfault.
    apply source_open_state in Ho as Hst.
    destruct Hst as (_ & _ & _ & _ & Hlen & Hbase & _).
    apply source_open_ret in Ho
      as (fd & w1 & fs & w2 & w3 & _ & Hfd & _ & Hmap & Hp & _ & Hv).
    apply sys_mmap_aligned in Hmap; [|done].
    assert (file_source.is_open v = true) as Hopen.
    { rewrite Hv. unfold file_source.is_open. simpl.
      by destruct (Z.eqb_spec fd (-1)). }
    unfold file_source.data, nullptr. split_and!; [done|lia|done|..];
      rewrite source_close_run, Hopen; simpl;
      by rewrite sys_munmap_succeeds.
  - intros path n v0 v w0 w w' Ho Hfault.
    apply sink_open_state in Ho as Hst.
    destruct Hst as (_ & Hlen & Hbase & _).
    apply sink_open_ret in Ho
      as (fd & w1 & u & w2 & _ & Hfd & _ & Hmap & Hp & Hv).
    apply sys_mmap_aligned in Hmap; [|done].
    assert (file_sink.is_open v = true) as Hopen.
    { rewrite Hv. unfold file_sink.is_open. simpl.
      by destruct (Z.eqb_spec fd (-1)). }
    unfold file_sink.data, nullptr. split_and!; [done|lia|done|..];
      rewrite sink_close_run, Hopen; simpl;
      by rewrite sys_munmap_succeeds.
Qed.

End closing.

(** ** The iterators *)

Section iterators.
Context `{Platform} {T : Type} `{POD T}.

Lemma source_advance_ptr (k : nat) (p : Z) :
  0 ≤ p → p + Z.of_nat k * sizeof T < 2 ^ size_bits →
  source_advance (T:=T) k (file_source.mk_iterator p)
  = file_source.mk_iterator (p + Z.of_nat k * sizeof T).
Proof.
  pose proof (sizeof_pos (T:=T)) as Hs. intros Hp.
  induction k as [|k IH]; intros Hfit.
  - simpl. f_equal. lia.
  - unfold source_advance in *. simpl. rewrite IH by lia.
    unfold file_source.incr, ptr_add. simpl. f_equal.
    rewrite to_size_t_small by lia. lia.
Qed.

Lemma sink_advance_ptr (k : nat) (p : Z) :
  0 ≤ p → p + Z.of_nat k * sizeof T < 2 ^ size_bits →
  sink_advance (T:=T) k (file_sink.mk_iterator p)
  = file_sink.mk_iterator (p + Z.of_nat k * sizeof T).
Proof.
  pose proof (sizeof_pos (T:=T)) as Hs. intros Hp.
  induction k as [|k IH]; intros Hfit.
  - simpl. f_equal. lia.
  - unfold sink_advance in *. simpl. rewrite IH by lia.
    unfold file_sink.incr, ptr_add. simpl. f_equal.
    rewrite to_size_t_small by lia. lia.
Qed.

(** X9: the iterator protocol.  On a view whose elements lie below the
    top of the address space, advancing [begin()] with [++] exactly
    [size()] times gives an iterator equal to [end()], and after fewer
    steps the iterator still differs from [end()]: a loop from [begin()] to
    [end()] makes [size()] steps, no fewer and no more.  This holds for the
    read view and for the write view. *)
Theorem begin_advances_to_end :
  (∀ v : file_source.t,
     0 ≤ file_source.m_data v → 0 ≤ file_source.m_size v →
     file_source.m_data v + file_source.size (T:=T) v * sizeof T
       < 2 ^ size_bits →
     source_advance (T:=T) (Z.to_nat (file_source.size (T:=T) v))
       (file_source.begin_ (T:=T) v)
     = file_source.end_ (T:=T) v
     ∧ ∀ k : nat, Z.of_nat k < file_source.size (T:=T) v →
         file_source.iterator_ne
           (source_advance (T:=T) k (file_source.begin_ (T:=T) v))
           (file_source.end_ (T:=T) v) = true)
  ∧ (∀ v : file_sink.t,
     0 ≤ file_sink.m_data v → 0 ≤ file_sink.m_size v →
     file_sink.m_data v + file_sink.size (T:=T) v * sizeof T
       < 2 ^ size_bits →
     sink_advance (T:=T) (Z.to_nat (file_sink.size (T:=T) v))
       (file_sink.begin_ (T:=T) v)
     = file_sink.end_ (T:=T) v
     ∧ ∀ k : nat, Z.of_nat k < file_sink.size (T:=T) v →
         file_sink.iterator_ne
           (sink_advance (T:=T) k (file_sink.begin_ (T:=T) v))
           (file_sink.end_ (T:=T) v) = true).
Proof.
  pose proof (sizeof_pos (T:=T)) as Hs.
  split; intros v Hp Hsz Hfit.
  - assert (0 ≤ file_source.size (T:=T) v) as Hn.
    { unfold file_source.size. apply Z.quot_pos; lia. }
    unfold file_source.begin_, file_source.end_, file_source.iterator_ctor,
      ptr_add.
    rewrite !to_size_t_small by lia. rewrite Z.mul_0_l, Z.add_0_r. split.
    + rewrite source_advance_ptr by lia. f_equal. lia.
    + intros k Hk. rewrite source_advance_ptr by nia.
      unfold file_source.iterator_ne, file_source.iterator_eq. simpl.
      apply negb_true_iff, Z.eqb_neq. nia.
  - assert (0 ≤ file_sink.size (T:=T) v) as Hn.
    { unfold file_sink.size. apply Z.quot_pos; lia. }
    unfold file_sink.begin_, file_sink.end_, file_sink.iterator_ctor,
      ptr_add.
    rewrite !to_size_t_small by lia. rewrite Z.mul_0_l, Z.add_0_r. split.
    + rewrite sink_advance_ptr by lia. f_equal. lia.
    + intros k Hk. rewrite sink_advance_ptr by nia.
      unfold file_sink.iterator_ne, file_sink.iterator_eq. simpl.
      apply negb_true_iff, Z.eqb_neq. nia.
Qed.

(** The loop from element [k] to element [n] of an array at [p]: with
    [n - k] units of fuel it does not run out, and what it returns are the
    elements [p[k]], ..., [p[n - 1]]. *)
Lemma traverse_indexing (w : World) (p : Z) (n : nat) :
  0 ≤ p → p + Z.of_nat n * sizeof T < 2 ^ size_bits →
  ∀ (fuel k : nat), (k ≤ n)%nat →
    ((n - k ≤ fuel)%nat →
     file_source.traverse (T:=T) fuel w
       (file_source.mk_iterator (p + Z.of_nat k * sizeof T))
       (file_source.mk_iterator (p + Z.of_nat n * sizeof T)) ≠ OutOfFuel)
    ∧ ∀ xs,
        file_source.traverse (T:=T) fuel w
          (file_source.mk_iterator (p + Z.of_nat k * sizeof T))
          (file_source.mk_iterator (p + Z.of_nat n * sizeof T)) = Done xs →
        length xs = (n - k)%nat
        ∧ ∀ (i : nat) (x : T), xs !! i = Some x →
            load w (p + Z.of_nat (k + i) * sizeof T) = Some x.
Proof.
  pose proof (sizeof_pos (T:=T)) as Hs. intros Hp Hfit.
  assert (∀ k : nat, (k ≤ n)%nat →
            file_source.iterator_ne
              (file_source.mk_iterator (p + Z.of_nat k * sizeof T))
              (file_source.mk_iterator (p + Z.of_nat n * sizeof T))
            = negb (bool_decide (k = n))) as Hne.
  { intros k Hk. unfold file_source.iterator_ne, file_source.iterator_eq.
    simpl. f_equal. case_bool_decide as Hkn.
    - subst. apply Z.eqb_refl.
    - apply Z.eqb_neq. nia. }
  assert (∀ k : nat, (k < n)%nat →
            file_source.incr (T:=T)
              (file_source.mk_iterator (p + Z.of_nat k * sizeof T))
            = file_source.mk_iterator (p + Z.of_nat (S k) * sizeof T))
    as Hincr.
  { intros k Hk. unfold file_source.incr, ptr_add. simpl. f_equal.
    rewrite to_size_t_small by nia. lia. }
  induction fuel as [|fuel IH]; intros k Hk.
  - simpl. rewrite Hne by done. case_bool_decide as Hkn; simpl.
    + subst. split; [done|]. intros xs [= <-]. split; [simpl; lia|done].
    + split; [lia|done].
  - simpl. rewrite Hne by done. case_bool_decide as Hkn; simpl.
    + subst. split; [done|]. intros xs [= <-]. split; [simpl; lia|done].
    + unfold file_source.deref. cbn [file_source.m_ptr].
      destruct (load w (p + Z.of_nat k * sizeof T)) as [x|] eqn:Hload;
        simpl; [|done].
      rewrite Hincr by lia.
      destruct (IH (S k) ltac:(lia)) as [IHfuel IHdone].
      destruct (file_source.traverse fuel w _ _) as [xs'| |] eqn:Htr.
      * split; [done|]. intros xs [= <-].
        destruct (IHdone xs' eq_refl) as [Hlen Hidx].
        split; [simpl; lia|]. intros [|i] y Hy; simpl in Hy.
        -- injection Hy as <-. by rewrite Nat.add_0_r.
        -- replace (k + S i)%nat with (S k + i)%nat by lia. by apply Hidx.
      * done.
      * split; [|done]. intros Hf. apply IHfuel. lia.
Qed.

(** A load looks at the [sizeof(T)] bytes from its address on and at
    nothing else. *)
Lemma load_bytes_ext (w w' : World) (k : nat) :
  ∀ a : Z,
    (∀ b, a ≤ b < a + Z.of_nat k → peek w b = peek w' b) →
    load_bytes w a k = load_bytes w' a k.
Proof.
  induction k as [|k IH]; intros a Hsame; [done|].
  simpl. rewrite (Hsame a) by lia. rewrite (IH (a + 1)); [done|].
  intros b Hb. apply Hsame. lia.
Qed.

Lemma load_ext (w w' : World) (a : Z) :
  (∀ b, a ≤ b < a + sizeof T → peek w b = peek w' b) →
  load (T:=T) w a = load (T:=T) w' a.
Proof.
  intros Hsame. unfold load. rewrite (load_bytes_ext w w'); [done|].
  intros b Hb. apply Hsame. pose proof (sizeof_pos (T:=T)). lia.
Qed.

(** The loop from element [k] to element [n] of an array at [p] looks at
    the bytes of those elements only. *)
Lemma traverse_ext (w w' : World) (p : Z) (n : nat) :
  0 ≤ p → p + Z.of_nat n * sizeof T < 2 ^ size_bits →
  (∀ b, p ≤ b < p + Z.of_nat n * sizeof T → peek w b = peek w' b) →
  ∀ (fuel k : nat), (k ≤ n)%nat →
    file_source.traverse (T:=T) fuel w
      (file_source.mk_iterator (p + Z.of_nat k * sizeof T))
      (file_source.mk_iterator (p + Z.of_nat n * sizeof T))
    = file_source.traverse (T:=T) fuel w'
        (file_source.mk_iterator (p + Z.of_nat k * sizeof T))
        (file_source.mk_iterator (p + Z.of_nat n * sizeof T)).
Proof.
  pose proof (sizeof_pos (T:=T)) as Hs. intros Hp Hfit Hsame.
  induction fuel as [|fuel IH]; intros k Hk; [done|].
  simpl.
  destruct (file_source.iterator_ne _ _) eqn:Hne; [|done].
  assert (k ≠ n) as Hkn.
  { intros ->. unfold file_source.iterator_ne, file_source.iterator_eq in Hne.
    simpl in Hne. by rewrite Z.eqb_refl in Hne. }
  unfold file_source.deref. cbn [file_source.m_ptr].
  rewrite (load_ext w w') by (intros b Hb; apply Hsame; nia).
  destruct (load w' (p + Z.of_nat k * sizeof T)) as [x|]; simpl; [|done].
  assert (file_source.incr (T:=T)
            (file_source.mk_iterator (p + Z.of_nat k * sizeof T))
          = file_source.mk_iterator (p + Z.of_nat (S k) * sizeof T)) as ->.
  { unfold file_source.incr, ptr_add. simpl. f_equal.
    rewrite to_size_t_small by nia. lia. }
  by rewrite IH by lia.
Qed.

(** X10: what the loop over a read view visits.  On a view whose
    elements lie below the top of the address space the loop from
    [begin()] to [end()] stops within [size()] steps; when it comes to its
    end it has visited exactly [size()] elements, the [i]-th of which is
    what [data()[i]] reads; and it never reads before [data()] nor at or
    behind [data() + size()]: two states of memory that agree on the bytes
    of the [size()] elements give the same outcome of the loop, whatever
    they hold elsewhere. *)
Theorem source_iterate_indexes (v : file_source.t) (w : World) (fuel : nat) :
  0 ≤ file_source.m_data v → 0 ≤ file_source.m_size v →
  file_source.m_data v + file_source.size (T:=T) v * sizeof T
    < 2 ^ size_bits →
  ((Z.to_nat (file_source.size (T:=T) v) ≤ fuel)%nat →
   file_source.iterate (T:=T) fuel v w ≠ OutOfFuel)
  ∧ (∀ xs, file_source.iterate (T:=T) fuel v w = Done xs →
      Z.of_nat (length xs) = file_source.size (T:=T) v
      ∧ ∀ (i : nat) (x : T), xs !! i = Some x →
          read_from (subscript (T:=T) (file_source.data v) (Z.of_nat i)) w
          = Some x)
  ∧ (∀ w' : World,
       (∀ b, file_source.data v ≤ b
               < file_source.data v + file_source.size (T:=T) v * sizeof T →
             peek w b = peek w' b) →
       file_source.iterate (T:=T) fuel v w
       = file_source.iterate (T:=T) fuel v w').
Proof.
  pose proof (sizeof_pos (T:=T)) as Hs. intros Hp Hsz Hfit.
  assert (0 ≤ file_source.size (T:=T) v) as Hn.
  { unfold file_source.size. apply Z.quot_pos; lia. }
  set (n := Z.to_nat (file_source.size (T:=T) v)).
  assert (file_source.size (T:=T) v = Z.of_nat n) as Hsize by lia.
  destruct (traverse_indexing w (file_source.m_data v) n Hp ltac:(lia)
              fuel 0%nat ltac:(lia)) as [Hfuel Hdone].
  unfold file_source.iterate, file_source.begin_, file_source.end_,
    file_source.iterator_ctor, ptr_add, file_source.data.
  rewrite !to_size_t_small by lia. rewrite Hsize.
  simpl in Hfuel, Hdone. split_and!.
  - intros Hf. apply Hfuel. lia.
  - intros xs Hxs. destruct (Hdone xs Hxs) as [Hlen Hidx].
    split; [lia|]. intros i x Hx.
    pose proof (lookup_lt_Some _ _ _ Hx) as Hi.
    unfold subscript, read_from, ptr_add.
    rewrite to_size_t_small by nia. by apply Hidx.
  - intros w' Hsame.
    apply (traverse_ext w w' (file_source.m_data v) n Hp ltac:(lia) Hsame
             fuel 0%nat). lia.
Qed.

End iterators.

(** ** Elements, whole and partial *)

Section more_elements.
Context `{Platform} {T : Type} `{POD T}.

(** The loop over the elements [xs] of a file that goes on with [post]. *)
Lemma traverse_file_tail (w : World) (m : mapping) (ms : list mapping)
    (post : list byte) (xs : list T) :
  ∀ (pre : list byte) (fuel : nat),
    mappings w = m :: ms →
    files w !! map_path m = Some (pre ++ concat (map to_bytes xs) ++ post) →
    file_length pre + Z.of_nat (length xs) * sizeof T ≤ map_len m →
    0 < map_base m → map_base m + round_up (map_len m) < MAP_FAILED →
    (length xs ≤ fuel)%nat →
    file_source.traverse (T:=T) fuel w
      (file_source.mk_iterator (map_base m + file_length pre))
      (file_source.mk_iterator
         (map_base m + file_length pre + Z.of_nat (length xs) * sizeof T))
    = Done xs.
Proof.
  pose proof (sizeof_pos (T:=T)) as Hs.
  pose proof (round_up_ge (map_len m)) as Hru.
  induction xs as [|x xs IH]; intros pre fuel Hmaps Hc Hlen Hbase Hend Hfuel.
  - simpl. rewrite Z.add_0_r. apply source_traverse_empty.
  - destruct fuel as [|fuel]; [simpl in Hfuel; lia|].
    simpl in Hc, Hfuel.
    assert (0 ≤ file_length pre) by (unfold file_length; lia).
    assert (0 ≤ Z.of_nat (length xs) * sizeof T) by lia.
    assert (Z.of_nat (length (x :: xs)) * sizeof T
            = sizeof T + Z.of_nat (length xs) * sizeof T) as Hcons
      by (simpl length; lia).
    rewrite Hcons in *. simpl.
    assert (file_source.iterator_ne
              (file_source.mk_iterator (map_base m + file_length pre))
              (file_source.mk_iterator
                 (map_base m + file_length pre
                  + (sizeof T + Z.of_nat (length xs) * sizeof T))) = true)
      as ->.
    { unfold file_source.iterator_ne, file_source.iterator_eq. simpl.
      apply negb_true_iff, Z.eqb_neq. lia. }
    unfold file_source.deref. simpl.
    rewrite (load_file w m ms Hmaps x pre (concat (map to_bytes xs) ++ post));
      [|by rewrite <-app_assoc in Hc|lia].
    simpl. unfold file_source.incr. simpl.
    rewrite ptr_add_small by lia.
    assert (file_length (pre ++ to_bytes x) = file_length pre + sizeof T)
      as Hpre.
    { unfold file_length. rewrite length_app, Nat2Z.inj_add, to_bytes_length.
      lia. }
    replace (map_base m + file_length pre + 1 * sizeof T)
      with (map_base m + file_length (pre ++ to_bytes x)) by lia.
    replace (map_base m + file_length pre
             + (sizeof T + Z.of_nat (length xs) * sizeof T))
      with (map_base m + file_length (pre ++ to_bytes x)
            + Z.of_nat (length xs) * sizeof T) by lia.
    rewrite IH; [done|done| |lia|done|done|lia].
    rewrite <-app_assoc in Hc. by rewrite <-app_assoc.
Qed.

(** X3: a file whose length is no multiple of [sizeof(T)].  When the file
    consists of the elements [xs] followed by fewer than [sizeof(T)] more
    bytes, a read view that [open] has returned has [size()] equal to the
    number of whole elements, and its loop yields exactly [xs]: the
    trailing bytes are mapped and counted in [bytes()], and never
    visited. *)
Theorem source_iterate_partial
    (path : string) (adv : Z) (xs : list T) (tail : list byte)
    (v0 v : file_source.t) (w0 w : World) (fuel : nat) :
  files w0 !! path = Some (concat (map to_bytes xs) ++ tail) →
  file_length tail < sizeof T →
  Z.of_nat (length xs) * sizeof T + file_length tail < 2 ^ size_bits →
  file_source.open (T:=T) path adv (v0, w0) = (Ret (), (v, w)) →
  (length xs ≤ fuel)%nat →
  file_source.bytes v = Z.of_nat (length xs) * sizeof T + file_length tail
  ∧ file_source.size (T:=T) v = Z.of_nat (length xs)
  ∧ file_source.iterate (T:=T) fuel v w = Done xs.
Proof.
  intros Hc Htail Hfit Hopen Hfuel. pose proof (sizeof_pos (T:=T)) as Hs.
  assert (0 ≤ file_length tail) by (unfold file_length; lia).
  apply source_open_state in Hopen
    as (c & Hc' & Hfiles & Hsz & Hpos & Hbase & Hend & Hmaps & _).
  rewrite Hc in Hc'. injection Hc' as <-.
  assert (file_length (concat (map to_bytes xs) ++ tail)
          = Z.of_nat (length xs) * sizeof T + file_length tail) as Hlen.
  { pose proof (concat_to_bytes_length xs) as Hcl. unfold file_length in *.
    rewrite length_app, Nat2Z.inj_add. lia. }
  rewrite Hlen in Hsz. rewrite to_size_t_small in Hsz by lia.
  assert (file_source.size (T:=T) v = Z.of_nat (length xs)) as Hsize.
  { unfold file_source.size. rewrite Hsz.
    rewrite Z.quot_div_nonneg by lia.
    rewrite Z.add_comm, Z.div_add by lia.
    rewrite Z.div_small by lia. lia. }
  split_and!; [done..|].
  set (m := {| map_base := file_source.m_data v;
               map_len := file_source.m_size v;
               map_path := path; map_write := false |}) in *.
  pose proof (round_up_ge (file_source.m_size v)) as Hru.
  unfold file_source.iterate, file_source.begin_, file_source.end_,
    file_source.iterator_ctor.
  rewrite Hsize, !ptr_add_small by lia. rewrite Z.mul_0_l.
  replace (file_source.m_data v + 0)
    with (map_base m + file_length []) by (simpl; unfold file_length; simpl; lia).
  replace (file_source.m_data v + Z.of_nat (length xs) * sizeof T)
    with (map_base m + file_length [] + Z.of_nat (length xs) * sizeof T)
    by (simpl; unfold file_length; simpl; lia).
  apply (traverse_file_tail w m (mappings w0) tail xs []); try done.
  - by rewrite Hfiles.
  - simpl. unfold file_length at 1. simpl. lia.
Qed.

(** X14: the mapping of a read view is read-only: after [open] has
    returned, a store to any of its elements faults, and nothing is
    written. *)
Theorem source_mapping_read_only
    (path : string) (adv : Z) (v0 v : file_source.t) (w0 w : World)
    (i : Z) (x : T) :
  file_source.open (T:=T) path adv (v0, w0) = (Ret (), (v, w)) →
  0 ≤ i < file_source.size (T:=T) v →
  assign_to (subscript (T:=T) (file_source.data v) i) x w = None.
Proof.
  intros Hopen Hi. pose proof (sizeof_pos (T:=T)) as Hs.
  apply source_open_state in Hopen
    as (c & Hc & Hfiles & Hsz & Hpos & Hbase & Hend & Hmaps & _).
  pose proof (round_up_ge (file_source.m_size v)) as Hru.
  pose proof (quot_sizeof_bounds (T:=T) (file_source.m_size v) ltac:(lia))
    as [Hlo _].
  fold (file_source.size (T:=T) v) in Hlo.
  unfold subscript, assign_to, store, file_source.data.
  rewrite ptr_add_small by nia.
  pose proof (to_bytes_length x) as Hx.
  destruct (to_bytes x) as [|b bs]; [simpl in Hx; lia|].
  simpl. unfold poke.
  rewrite (find_head w _ _ Hmaps) by (simpl; nia).
  simpl. by destruct (files w !! path).
Qed.

End more_elements.

(** ** Reading through the write view *)

Section sink_reads.
Context `{Platform} {T : Type} `{POD T}.

(** The loops of the two views are the same loop. *)
Lemma sink_traverse_as_source (w : World) (fuel : nat) :
  ∀ it last : file_sink.iterator,
    file_sink.traverse (T:=T) fuel w it last
    = file_source.traverse (T:=T) fuel w
        (file_source.mk_iterator (file_sink.m_ptr it))
        (file_source.mk_iterator (file_sink.m_ptr last)).
Proof.
  induction fuel as [|fuel IH]; intros it last; simpl.
  - done.
  - unfold file_sink.iterator_ne, file_sink.iterator_eq,
      file_source.iterator_ne, file_source.iterator_eq. simpl.
    destruct (negb (file_sink.m_ptr it =? file_sink.m_ptr last)); [|done].
    unfold file_sink.deref, file_source.deref. simpl.
    destruct (load w (file_sink.m_ptr it)); simpl; [|done].
    by rewrite IH.
Qed.

(** The mapping and the file once the elements [xs] were stored through
    [data()] of a freshly opened write view. *)
Lemma sink_fill_state (path : string) (xs : list T)
    (v0 v : file_sink.t) (w0 w1 w2 : World) :
  Z.of_nat (length xs) * sizeof T < 2 ^ size_bits →
  file_sink.open (T:=T) path (Z.of_nat (length xs)) (v0, w0) = (Ret (), (v, w1)) →
  file_sink.fill (file_sink.data v) 0 xs w1 = Some w2 →
  mappings w2 = mappings w1
  ∧ files w2 !! path = Some (concat (map to_bytes xs)).
Proof.
  intros Hfit Hopen Hfill. pose proof (sizeof_pos (T:=T)) as Hs.
  apply sink_open_state in Hopen as (Hsz & Hpos & Hbase & Hend & Hmaps & Hfiles).
  rewrite to_size_t_small in Hsz by lia.
  unfold file_sink.data in Hfill.
  set (m := {| map_base := file_sink.m_data v; map_len := file_sink.m_size v;
               map_path := path; map_write := true |}) in *.
  destruct Hfiles as [Hf|Hf].
  - destruct xs as [|x xs]; [simpl in *; lia|].
    rewrite (fill_empty_file m (mappings w0) w1) in Hfill; try done.
    by rewrite Hf, lookup_insert_eq.
  - destruct (fill_file m (mappings w0) xs w1 []
                (replicate (Z.to_nat (file_sink.m_size v)) Byte.x00) [] 0)
      as (w' & Hfill' & Hm' & Hf'); try done.
    + by rewrite Hf, lookup_insert_eq, app_nil_r.
    + unfold file_length. rewrite length_replicate. simpl in *. lia.
    + unfold file_length. rewrite length_replicate. simpl in *. lia.
    + simpl in Hfill'. rewrite Hfill in Hfill'. injection Hfill' as <-.
      split; [done|]. by rewrite Hf', lookup_insert_eq, app_nil_r.
Qed.

(** The loop over a write view whose file holds the elements [xs]. *)
Lemma sink_iterate_file (path : string) (xs : list T)
    (v : file_sink.t) (w : World) (ms : list mapping) (fuel : nat) :
  file_sink.m_size v = Z.of_nat (length xs) * sizeof T →
  0 < file_sink.m_data v →
  file_sink.m_data v + round_up (file_sink.m_size v) < MAP_FAILED →
  mappings w
    = {| map_base := file_sink.m_data v; map_len := file_sink.m_size v;
         map_path := path; map_write := true |} :: ms →
  files w !! path = Some (concat (map to_bytes xs)) →
  (length xs ≤ fuel)%nat →
  file_sink.iterate (T:=T) fuel v w = Done xs.
Proof.
  intros Hsz Hbase Hend Hmaps Hc Hfuel. pose proof (sizeof_pos (T:=T)) as Hs.
  set (m := {| map_base := file_sink.m_data v; map_len := file_sink.m_size v;
               map_path := path; map_write := true |}) in *.
  pose proof (round_up_ge (file_sink.m_size v)) as Hru.
  assert (file_sink.size (T:=T) v = Z.of_nat (length xs)) as Hsize.
  { unfold file_sink.size. rewrite Hsz. apply Z.quot_mul. lia. }
  unfold file_sink.iterate. rewrite sink_traverse_as_source.
  unfold file_sink.begin_, file_sink.end_, file_sink.iterator_ctor. simpl.
  rewrite Hsize, !ptr_add_small by lia.
  rewrite <-Hsz, Z.mul_0_l.
  by apply (traverse_file w m ms xs []).
Qed.

(** X11: a write view reads its own writes.  After the [n] elements [xs]
    were stored through [data()] of a write view opened with element
    count [n], the loop over that same view, still open, yields exactly
    [xs]. *)
Theorem sink_reads_its_writes
    (path : string) (xs : list T) (v0 v : file_sink.t)
    (w0 w1 w2 : World) (fuel : nat) :
  Z.of_nat (length xs) * sizeof T < 2 ^ size_bits →
  file_sink.open (T:=T) path (Z.of_nat (length xs)) (v0, w0) = (Ret (), (v, w1)) →
  file_sink.fill (file_sink.data v) 0 xs w1 = Some w2 →
  (length xs ≤ fuel)%nat →
  file_sink.iterate (T:=T) fuel v w2 = Done xs.
Proof.
  intros Hfit Hopen Hfill Hfuel. pose proof (sizeof_pos (T:=T)) as Hs.
  destruct (sink_fill_state _ _ _ _ _ _ _ Hfit Hopen Hfill) as [Hm2 Hc].
  apply sink_open_state in Hopen as (Hsz & _ & Hbase & Hend & Hmaps & _).
  rewrite to_size_t_small in Hsz by lia.
  apply (sink_iterate_file path xs v w2 (mappings w0)); try done.
  by rewrite Hm2.
Qed.

Lemma concat_replicate_to_bytes (z : T) (k : nat) :
  to_bytes z = replicate (Z.to_nat (sizeof T)) Byte.x00 →
  concat (map to_bytes (replicate k z))
  = replicate (k * Z.to_nat (sizeof T)) Byte.x00.
Proof.
  intros Hz. induction k as [|k IH]; [done|].
  simpl. by rewrite IH, Hz, <-replicate_add.
Qed.

(** X15: the elements of a new file are zero.  When [open(path, n)] of
    the write view has returned and the resize took place (the file is not
    empty), every one of the [n] elements reads as the value [z] whose
    bytes are all zero, before anything is written. *)
Theorem sink_open_zeroed
    (path : string) (n : Z) (z : T) (v0 v : file_sink.t)
    (w0 w : World) (fuel : nat) :
  0 ≤ n → n * sizeof T < 2 ^ size_bits →
  to_bytes z = replicate (Z.to_nat (sizeof T)) Byte.x00 →
  file_sink.open (T:=T) path n (v0, w0) = (Ret (), (v, w)) →
  files w !! path ≠ Some [] →
  (Z.to_nat n ≤ fuel)%nat →
  file_length (default [] (files w !! path)) = n * sizeof T
  ∧ file_sink.iterate (T:=T) fuel v w = Done (replicate (Z.to_nat n) z).
Proof.
  intros Hn Hfit Hz Hopen Hresized Hfuel. pose proof (sizeof_pos (T:=T)) as Hs.
  apply sink_open_file in Hopen as Hfile.
  destruct Hfile as [Hfile|Hfile]; [done|].
  apply sink_open_state in Hopen as (Hsz & _ & Hbase & Hend & Hmaps & _).
  rewrite to_size_t_small in Hsz by lia.
  unfold file_sink.bytes in Hfile. rewrite Hfile. simpl. split.
  - unfold file_length. rewrite length_replicate. lia.
  - apply (sink_iterate_file path _ v w (mappings w0)); try done.
    + rewrite length_replicate. lia.
    + rewrite Hfile, concat_replicate_to_bytes by done. do 2 f_equal. nia.
    + by rewrite length_replicate.
Qed.

End sink_reads.

(** ** Concrete runs of the further properties *)

Lemma source_open_missing_witness :
  ∃ w, file_source.open (T:=uint32) "f" advice.normal
         (file_source.closed_state, boot)
       = (Throw (runtime_error "cannot open file"),
          (file_source.closed_state, w))
    ∧ fds w = fds boot.
Proof.
  destruct (source_open_missing (T:=uint32) "f" advice.normal
              file_source.closed_state boot)
    as (w & Ho & _ & _ & Hfds & _).
  - vm_compute. reflexivity.
  - exists w. split; [exact Ho|exact Hfds].
Defined.

Lemma source_iterate_partial_witness :
  file_source.bytes ragged_reading.2.1 = 10
  ∧ file_source.size (T:=uint32) ragged_reading.2.1 = 2
  ∧ file_source.iterate (T:=uint32) 2 ragged_reading.2.1 ragged_reading.2.2
    = Done (map uint32_of_Z [10; 20]).
Proof.
  refine (source_iterate_partial (T:=uint32) "f" advice.normal
            (map uint32_of_Z [10; 20]) [Byte.x1e; Byte.x00]
            file_source.closed_state ragged_reading.2.1
            ragged_disk ragged_reading.2.2 2 _ _ _ _ _).
  - vm_compute. reflexivity.
  - vm_compute. reflexivity.
  - vm_compute. reflexivity.
  - vm_compute. reflexivity.
  - vm_compute. lia.
Defined.

Lemma close_releases_witness :
  fds (file_source.close reading.2).2.2 !! 3 = None
  ∧ files (file_sink.close writing.2).2.2 = files writing.2.2.
Proof.
  split.
  - destruct (proj1 close_releases reading.2.1
                (file_source.close reading.2).2.1 reading.2.2
                (file_source.close reading.2).2.2) as (Hfd & _).
    + vm_compute. reflexivity.
    + vm_compute. reflexivity.
    + exact Hfd.
  - destruct (proj2 close_releases writing.2.1
                (file_sink.close writing.2).2.1 writing.2.2
                (file_sink.close writing.2).2.2) as (_ & _ & Hf).
    + vm_compute. reflexivity.
    + vm_compute. reflexivity.
    + exact Hf.
Defined.

Lemma sink_open_discards_witness :
  files (file_sink.open (T:=uint32) "f" 0 (file_sink.closed_state, disk)).2.2
    !! "f" = Some [].
Proof.
  destruct (proj1 (sink_open_discards (T:=uint32) "f" 0
                     file_sink.closed_state disk)) as [He|Hz].
  - vm_compute. discriminate.
  - exact He.
  - exact Hz.
Defined.

Lemma zero_length_never_opens_witness :
  (file_sink.open (T:=uint32) "f" 0 (file_sink.closed_state, boot)).1 ≠ Ret ()
  ∧ (file_source.open (T:=uint32) "f" advice.normal
       (file_source.closed_state, with_file "f" [] boot)).1 ≠ Ret ().
Proof.
  split.
  - apply (proj1 (zero_length_never_opens (T:=uint32))).
    vm_compute. reflexivity.
  - apply (proj2 (zero_length_never_opens (T:=uint32))).
    vm_compute. reflexivity.
Defined.

Lemma source_open_releases_nothing_witness :
  is_Some (fds (file_source.open (T:=uint32) "f" advice.normal reading.2).2.2
             !! file_source.m_fd reading.2.1).
Proof.
  apply (proj1 (source_open_releases_nothing (T:=uint32) "f" advice.normal
                  reading.2.1 reading.2.2)).
  vm_compute. eexists. reflexivity.
Defined.

Lemma sink_open_releases_nothing_witness :
  is_Some (fds (file_sink.open (T:=uint32) "g" 2 writing.2).2.2
             !! file_sink.m_fd writing.2.1).
Proof.
  apply (proj1 (sink_open_releases_nothing (T:=uint32) "g" 2
                  writing.2.1 writing.2.2)).
  vm_compute. eexists. reflexivity.
Defined.

Lemma mmap_failed_is_stuck_witness :
  file_source.dtor
    ((file_source.open (T:=uint32) "f" advice.normal
        (file_source.closed_state, with_file "f" [] boot)).2.1,
     boot)
  = terminated.
Proof.
  destruct (proj1 (mmap_failed_is_stuck (T:=uint32)) "f" advice.normal
              file_source.closed_state
              (file_source.open (T:=uint32) "f" advice.normal
                 (file_source.closed_state, with_file "f" [] boot)).2.1
              (with_file "f" [] boot)
              (file_source.open (T:=uint32) "f" advice.normal
                 (file_source.closed_state, with_file "f" [] boot)).2.2
              boot) as (_ & _ & _ & _ & Hd).
  - vm_compute. reflexivity.
  - exact Hd.
Defined.

Lemma begin_advances_to_end_witness :
  source_advance (T:=uint32) 2 (file_source.begin_ (T:=uint32) reading.2.1)
  = file_source.end_ (T:=uint32) reading.2.1.
Proof.
  destruct (proj1 (begin_advances_to_end (T:=uint32)) reading.2.1)
    as (Hend & _).
  - vm_compute. discriminate.
  - vm_compute. discriminate.
  - vm_compute. reflexivity.
  - exact Hend.
Defined.

Lemma source_iterate_indexes_witness :
  file_source.iterate (T:=uint32) 2 reading.2.1 reading.2.2 ≠ OutOfFuel
  ∧ file_source.iterate (T:=uint32) 2 reading.2.1 reading.2.2
    = file_source.iterate (T:=uint32) 2 reading.2.1
        (with_file "g" [Byte.x01] reading.2.2).
Proof.
  destruct (source_iterate_indexes (T:=uint32) reading.2.1 reading.2.2 2)
    as (Hfuel & _ & Hsame).
  - vm_compute. discriminate.
  - vm_compute. discriminate.
  - vm_compute. reflexivity.
  - split.
    + apply Hfuel. vm_compute. lia.
    + apply Hsame. intros b _. unfold peek.
      change (mappings (with_file "g" [Byte.x01] reading.2.2))
        with (mappings reading.2.2).
      destruct (List.find (covers b) (mappings reading.2.2)) as [m|] eqn:Hf;
        [|reflexivity].
      apply List.find_some in Hf as [Hin _]. vm_compute in Hin.
      destruct Hin as [<-|[]]. reflexivity.
Defined.

Lemma sink_reads_its_writes_witness :
  file_sink.iterate (T:=uint32) 2 writing.2.1 written
  = Done (map uint32_of_Z [10; 20]).
Proof.
  apply (sink_reads_its_writes (T:=uint32) "f" (map uint32_of_Z [10; 20])
           file_sink.closed_state writing.2.1 boot writing.2.2 written 2).
  - vm_compute. reflexivity.
  - vm_compute. reflexivity.
  - vm_compute. reflexivity.
  - vm_compute. lia.
Defined.

Lemma opened_view_closes_witness :
  (file_source.close (reading.2.1, reading.2.2)).1 = Ret ()
  ∧ (file_sink.close (writing.2.1, written)).2.1 = file_sink.closed_state.
Proof.
  split.
  - destruct (proj1 (opened_view_closes (T:=uint32)) "f" advice.sequential
                file_source.closed_state reading.2.1 disk reading.2.2
                reading.2.2) as (_ & _ & _ & Hc & _).
    + vm_compute. reflexivity.
    + vm_compute. discriminate.
    + exact Hc.
  - destruct (proj2 (opened_view_closes (T:=uint32)) "f" 2
                file_sink.closed_state writing.2.1 boot writing.2.2
                written) as (_ & _ & _ & _ & Hc).
    + vm_compute. reflexivity.
    + vm_compute. discriminate.
    + exact Hc.
Defined.

Lemma sink_size_exact_witness :
  file_sink.bytes writing.2.1 = 2 * sizeof uint32
  ∧ file_sink.size (T:=uint32) writing.2.1 = 2 ∧ 0 < 2.
Proof.
  apply (sink_size_exact (T:=uint32) "f" 2 file_sink.closed_state
           writing.2.1 boot writing.2.2).
  - vm_compute. discriminate.
  - vm_compute. reflexivity.
  - vm_compute. reflexivity.
Defined.

Lemma source_mapping_read_only_witness :
  assign_to (subscript (T:=uint32) (file_source.data reading.2.1) 1)
    (uint32_of_Z 7) reading.2.2 = None.
Proof.
  apply (source_mapping_read_only (T:=uint32) "f" advice.sequential
           file_source.closed_state reading.2.1 disk reading.2.2 1
           (uint32_of_Z 7)).
  - vm_compute. reflexivity.
  - vm_compute. split; [discriminate|reflexivity].
Defined.

Lemma sink_open_zeroed_witness :
  file_length (default [] (files writing.2.2 !! "f")) = 2 * sizeof uint32
  ∧ file_sink.iterate (T:=uint32) 2 writing.2.1 writing.2.2
    = Done (replicate (Z.to_nat 2) (uint32_of_Z 0)).
Proof.
  apply (sink_open_zeroed (T:=uint32) "f" 2 (uint32_of_Z 0)
           file_sink.closed_state writing.2.1 boot writing.2.2 2).
  - vm_compute. discriminate.
  - vm_compute. reflexivity.
  - vm_compute. reflexivity.
  - vm_compute. reflexivity.
  - vm_compute. discriminate.
  - vm_compute. lia.
Defined.
